(** * Leilão tracker: deduplication, scoring, ranking and novelty tagging

    A shallow embedding of [scripts/types.ts], [scripts/utils.ts] and
    [scripts/deduplicate.ts], followed by the properties of the
    deduplication pipeline.

    Conventions of the embedding.
    - A JavaScript string is the Rocq [string] that holds its UTF-8
      encoding; string equality is preserved by this encoding, and
      [JS.length] recovers the number of UTF-16 code units that
      [String.prototype.length] returns.
    - A JavaScript [number] is a rational [Q]: every finite double is one,
      and the code only compares numbers, subtracts them to read the sign
      of the difference and tests them for zero.  [NaN] and the infinities
      do not occur in the record fields (they have no JSON form).
    - [T | null] and an optional field [f?: T] are [option T].
    - An array is a [list]; [arr[i] = x] is stdpp's [<[i:=x]> arr].
    - A [Set<string>] is the list of its elements in insertion order,
      which is the order in which [for ... of] visits them. *)

From Stdlib Require Import Ascii String QArith Lqa Sorted.
From stdpp Require Import gmultiset base list strings gmap.

Local Open Scope Z_scope.

(** ** JavaScript values and built-ins *)

Module JS.

(** Truthiness: [null], [undefined], [0], [''] and [false] are falsy. *)
Definition truthy_number (x : option Q) : bool :=
  match x with
  | Some q => negb (Qeq_bool q 0)
  | None => false
  end.

Definition truthy_string (s : string) : bool :=
  negb (String.eqb s EmptyString).

Definition truthy_opt_string (x : option string) : bool :=
  match x with
  | Some s => truthy_string s
  | None => false
  end.

Definition truthy_bool (x : option bool) : bool :=
  match x with
  | Some b => b
  | None => false
  end.

(** [x < y] on numbers. *)
Definition lt (x y : Q) : bool := negb (Qle_bool y x).

(** [x || d] on a nullable number. *)
Definition number_or (x : option Q) (d : Q) : Q :=
  match x with
  | Some q => if Qeq_bool q 0 then d else q
  | None => d
  end.

(** [s.length]: UTF-16 code units of the string whose UTF-8 encoding is
    [s].  A continuation byte (10xxxxxx) adds nothing, a lead byte of a
    four-byte sequence (11110xxx) stands for a surrogate pair. *)
Definition units_of_byte (c : ascii) : nat :=
  let n := nat_of_ascii c in
  if (n <? 128)%nat then 1%nat
  else if (n <? 192)%nat then 0%nat
  else if (n <? 240)%nat then 1%nat
  else 2%nat.

Fixpoint length (s : string) : nat :=
  match s with
  | EmptyString => 0%nat
  | String c rest => (units_of_byte c + length rest)%nat
  end.

(** [Set.prototype.has] and [Set.prototype.add] on the insertion-ordered
    element list. *)
Definition Set_has (x : string) (s : list string) : bool :=
  bool_decide (x ∈ s).

Definition Set_add (x : string) (s : list string) : list string :=
  if Set_has x s then s else s ++ [x].

(** Stable insertion by a boolean order: [x] is put in front of the first
    [y] with [leb x y], and [sort_by] inserts the elements of a list from
    its last one to its first one. *)
Section Sort.
Context {A : Type}.

Fixpoint insert_by (leb : A → A → bool) (x : A) (sorted : list A) : list A :=
  match sorted with
  | [] => [x]
  | y :: rest =>
      if leb x y then x :: sorted else y :: insert_by leb x rest
  end.

Definition sort_by (leb : A → A → bool) (l : list A) : list A :=
  foldr (insert_by leb) [] l.

(** [Array.prototype.sort(compareFn)].  The array is taken from left to
    right, and an element is moved ahead of the elements before it for as
    long as [compareFn(element, earlier)] is negative; a result of zero or
    more leaves the element behind the earlier one.  [sortedRev] is the
    part sorted so far, its last element first.

    ECMAScript 2019 requires the sort to be stable, and for a consistent
    comparator the stable sorted arrangement of a list is unique, whatever
    algorithm the engine runs ([stable_sort_is_sort_by] and
    [Array_sort_sort_by] below).  For an inconsistent comparator ECMAScript
    leaves the order to the engine.  On an array of two elements V8 and
    JavaScriptCore, the engine of Bun, call [compareFn(second, first)] once
    and exchange the two exactly when the result is negative, as this
    definition does; an array on which every such call returns a positive
    number is left as it is. *)
Definition Array_sort (compareFn : A → A → Q) (l : list A) : list A :=
  let behind x earlier := negb (lt (compareFn x earlier) 0) in
  rev (foldl (λ sortedRev x, insert_by behind x sortedRev) [] l).
End Sort.

End JS.

(** ** scripts/types.ts *)

Record Property := {
  id : string;
  tipo : string;
  bairro : string;
  endereco : string;
  lance : Q;
  avaliacao : option Q;
  desconto : option Q;
  modalidade : string;
  encerramento : option string;
  ocupacao : string;
  area : option string;
  fonte : string;
  link : string;
  novo : option bool;
  prioridade : option bool;
  semVagas : option bool;
  alertas : option (list string);
  quartos : option Q;
  vagas : option Q;
  precoM2 : option Q;
  mediaM2Bairro : option Q;
  descontoReal : option Q;
  score : option Q;
  scoreBreakdown : option string
}.

Definition MIN_DISCOUNT : Q := 40.
Definition MAX_PRICE : Q := 800000.

(** ** External functions

    [normalizeText] chains four string built-ins, and [deduplicateProperties]
    calls [compareTwoStrings] of the npm package [string-similarity].  They
    are the interface the repository's code is written against.  The
    similarity is a quotient of two small integers, so its double and the
    rational it rounds lie on the same side of the threshold. *)

Class Externals := {
  String_normalize_NFD : string → string;
  String_replace_combining_marks : string → string;
  String_toLowerCase : string → string;
  String_trim : string → string;
  compareTwoStrings : string → string → Q
}.

(** ** scripts/utils.ts *)

Definition meetsFilters (property : Property) : bool :=
  match desconto property with
  | None => false
  | Some d =>
      if JS.lt d MIN_DISCOUNT then false
      else if JS.lt MAX_PRICE (lance property) then false
      else true
  end.

Definition normalizeText `{Externals} (text : string) : string :=
  String_trim
    (String_toLowerCase
       (String_replace_combining_marks (String_normalize_NFD text))).

(** ** scripts/deduplicate.ts *)

Definition ADDRESS_SIMILARITY_THRESHOLD : Q := 85 # 100.

Definition scoreProperty (property : Property) : Z :=
  let score := 0 in
  let score :=
    if JS.truthy_number (avaliacao property) then score + 3 else score in
  let score :=
    if JS.truthy_number (desconto property) then score + 3 else score in
  let score :=
    if JS.truthy_opt_string (area property) then score + 2 else score in
  let score :=
    if JS.truthy_opt_string (encerramento property) then score + 1 else score in
  let score :=
    if negb (String.eqb (ocupacao property) "desconhecido")
    then score + 2 else score in
  let score :=
    if (20 <? JS.length (endereco property))%nat then score + 1 else score in
  let score :=
    if JS.truthy_string (modalidade property)
       && negb (String.eqb (modalidade property) "Leilão")
    then score + 1 else score in
  score.

Definition shouldReplace (existing newProp : Property) : bool :=
  let existingScore := scoreProperty existing in
  let newScore := scoreProperty newProp in
  if existingScore <? newScore then true
  else if newScore =? existingScore then
    if JS.truthy_number (desconto newProp)
       && negb (JS.truthy_number (desconto existing)) then true
    else if JS.truthy_number (avaliacao newProp)
            && negb (JS.truthy_number (avaliacao existing)) then true
    else false
  else false.

(** The comparator handed to [deduplicated.sort]. *)
Definition compareFn (a b : Property) : Q :=
  if bool_decide (prioridade a ≠ prioridade b) then
    if JS.truthy_bool (prioridade a) then -1 else 1
  else
    let discountA := JS.number_or (desconto a) 0 in
    let discountB := JS.number_or (desconto b) 0 in
    if negb (Qeq_bool discountA discountB) then discountB - discountA
    else lance a - lance b.

Section Deduplicate.
Context `{Externals}.

(** [compareTwoStrings(x, y) >= ADDRESS_SIMILARITY_THRESHOLD] *)
Definition similar (x y : string) : bool :=
  Qle_bool ADDRESS_SIMILARITY_THRESHOLD (compareTwoStrings x y).

(** The inner [for ... of seen] loop: the first seen address that
    reaches the threshold, at which the loop breaks. *)
Definition findSeen (normalizedAddress : string) (seen : list string)
  : option (nat * string) :=
  list_find (λ existingAddress, similar normalizedAddress existingAddress = true)
            seen.

(** [deduplicated.findIndex(p => compareTwoStrings(normalizeText(p.endereco),
    existingAddress) >= ADDRESS_SIMILARITY_THRESHOLD)], together with the
    element found there. *)
Definition findIndex (existingAddress : string) (deduplicated : list Property)
  : option (nat * Property) :=
  list_find (λ p, similar (normalizeText (endereco p)) existingAddress = true)
            deduplicated.

(** One iteration of the outer loop on the state [(deduplicated, seen)]. *)
Definition dedupStep (st : list Property * list string) (property : Property)
  : list Property * list string :=
  let '(deduplicated, seen) := st in
  let normalizedAddress := normalizeText (endereco property) in
  match findSeen normalizedAddress seen with
  | Some (_, existingAddress) =>
      match findIndex existingAddress deduplicated with
      | Some (existingIndex, existing) =>
          if shouldReplace existing property
          then (<[existingIndex := property]> deduplicated, seen)
          else (deduplicated, seen)
      | None => (deduplicated, seen)
      end
  | None => (deduplicated ++ [property], JS.Set_add normalizedAddress seen)
  end.

Definition dedupLoop (allProperties : list Property)
  : list Property * list string :=
  foldl dedupStep ([], []) allProperties.

Definition deduplicateProperties (sources : list (list Property))
  : list Property :=
  let allProperties := concat sources in
  let deduplicated := (dedupLoop allProperties).1 in
  JS.Array_sort compareFn deduplicated.
End Deduplicate.

(** [{...property, novo: flag}]: a fresh object with every own field of
    [property] and [novo] set. *)
Definition spreadWithNovo (property : Property) (flag : bool) : Property :=
  {| id := id property; tipo := tipo property; bairro := bairro property;
     endereco := endereco property; lance := lance property;
     avaliacao := avaliacao property; desconto := desconto property;
     modalidade := modalidade property; encerramento := encerramento property;
     ocupacao := ocupacao property; area := area property;
     fonte := fonte property; link := link property;
     novo := Some flag;
     prioridade := prioridade property; semVagas := semVagas property;
     alertas := alertas property; quartos := quartos property;
     vagas := vagas property; precoM2 := precoM2 property;
     mediaM2Bairro := mediaM2Bairro property;
     descontoReal := descontoReal property; score := score property;
     scoreBreakdown := scoreBreakdown property |}.

(** [markNewProperties]: [previousIds] is a [Set] that is only queried. *)
Definition markNewProperties (current previous : list Property)
  : list Property :=
  let previousIds : gset string := list_to_set (map id previous) in
  map (λ property,
         spreadWithNovo property
           (negb (bool_decide (id property ∈ previousIds))))
      current.

(** ** [markNewProperties] on a store

    The same function with objects and arrays as mutable cells of a store:
    an array holds references to its records.  [Array.prototype.map] and
    the object spread allocate; nothing is written to a cell that exists. *)

Module Store.

Record store := {
  objects : list Property;
  arrays : list (list nat)
}.

(** The records an array refers to, when all its references are live. *)
Definition readArray (st : store) (array : nat) : option (list Property) :=
  refs ← arrays st !! array;
  mapM (λ r, objects st !! r) refs.

Definition allocObjects (st : store) (fresh : list Property)
  : store * list nat :=
  ({| objects := objects st ++ fresh; arrays := arrays st |},
   seq (length (objects st)) (length fresh)).

Definition allocArray (st : store) (refs : list nat) : store * nat :=
  ({| objects := objects st; arrays := arrays st ++ [refs] |},
   length (arrays st)).

Definition markNewProperties (st : store) (current previous : nat)
  : option (store * nat) :=
  prev ← readArray st previous;
  let previousIds : gset string := list_to_set (map id prev) in
  cur ← readArray st current;
  let '(st1, refs) :=
    allocObjects st
      (map (λ property,
              spreadWithNovo property
                (negb (bool_decide (id property ∈ previousIds)))) cur) in
  Some (allocArray st1 refs).

End Store.

(** ** The external functions on ASCII text

    On text made of ASCII characters only, NFD normalisation and the
    removal of combining marks change nothing and a character is one byte.
    [compareTwoStrings] follows string-similarity 4.0: Dice's coefficient
    on the bigrams of the two strings with their white space removed. *)

Module AsciiText.

Definition isWhiteSpace (c : ascii) : bool :=
  let n := nat_of_ascii c in
  ((9 <=? n) && (n <=? 13) || (n =? 32))%nat.

Definition lowerChar (c : ascii) : ascii :=
  let n := nat_of_ascii c in
  if ((65 <=? n) && (n <=? 90))%nat then ascii_of_nat (n + 32) else c.

Fixpoint toLowerCase (s : string) : string :=
  match s with
  | EmptyString => EmptyString
  | String c rest => String (lowerChar c) (toLowerCase rest)
  end.

Fixpoint trimStart (s : string) : string :=
  match s with
  | EmptyString => EmptyString
  | String c rest => if isWhiteSpace c then trimStart rest else s
  end.

Definition reverse (s : string) : string :=
  string_of_list_ascii (rev (list_ascii_of_string s)).

Definition trim (s : string) : string :=
  reverse (trimStart (reverse (trimStart s))).

(** [s.replace(/\s+/g, '')] *)
Fixpoint removeWhiteSpace (s : string) : string :=
  match s with
  | EmptyString => EmptyString
  | String c rest =>
      if isWhiteSpace c then removeWhiteSpace rest
      else String c (removeWhiteSpace rest)
  end.

(** The first loop: [firstBigrams] counts each bigram of [first]. *)
Fixpoint countBigrams (first : string) (firstBigrams : gmap string nat)
  : gmap string nat :=
  match first with
  | String a (String b _ as rest) =>
      let bigram := String a (String b EmptyString) in
      let count :=
        match firstBigrams !! bigram with
        | Some n => (n + 1)%nat
        | None => 1%nat
        end in
      countBigrams rest (<[bigram := count]> firstBigrams)
  | _ => firstBigrams
  end.

(** The second loop: each bigram of [second] still available in
    [firstBigrams] is taken from it and counted. *)
Fixpoint intersectBigrams (second : string) (firstBigrams : gmap string nat)
  (intersectionSize : nat) : nat :=
  match second with
  | String a (String b _ as rest) =>
      let bigram := String a (String b EmptyString) in
      let count :=
        match firstBigrams !! bigram with
        | Some n => n
        | None => 0%nat
        end in
      if (0 <? count)%nat
      then intersectBigrams rest (<[bigram := (count - 1)%nat]> firstBigrams)
                            (S intersectionSize)
      else intersectBigrams rest firstBigrams intersectionSize
  | _ => intersectionSize
  end.

Definition compareTwoStrings (first second : string) : Q :=
  let first := removeWhiteSpace first in
  let second := removeWhiteSpace second in
  if String.eqb first second then 1
  else if ((String.length first <? 2) || (String.length second <? 2))%nat
  then 0
  else
    let firstBigrams := countBigrams first ∅ in
    let intersectionSize := intersectBigrams second firstBigrams 0 in
    (2 * Z.of_nat intersectionSize)
      # Pos.of_nat (String.length first + String.length second - 2).

(** The bigrams of a string, in order, and the multiset a bigram map
    stands for. *)
Fixpoint bigrams (s : string) : list string :=
  match s with
  | String a (String b _ as rest) =>
      String a (String b EmptyString) :: bigrams rest
  | _ => []
  end.

Definition counts (m : gmap string nat) (M : gmultiset string) : Prop :=
  ∀ b, default 0%nat (m !! b) = multiplicity b M.

Definition externals : Externals :=
  Build_Externals (λ s, s) (λ s, s) toLowerCase trim compareTwoStrings.

End AsciiText.

(** ** Vocabulary of the specification *)

(** Presence of a field is what the code tests: JavaScript truthiness, so
    that [null], an omitted field, [0] and [''] all count as absent. *)
Definition avaliacaoPresent (p : Property) : bool :=
  JS.truthy_number (avaliacao p).
Definition descontoPresent (p : Property) : bool :=
  JS.truthy_number (desconto p).

(** What the score counts as given: a number that is there and is not 0,
    a text that is there and is not empty. *)
Definition numberGiven (x : option Q) : Prop :=
  ∃ q, x = Some q ∧ ¬ (q == 0)%Q.
Definition textGiven (x : option string) : Prop :=
  ∃ s, x = Some s ∧ s ≠ EmptyString.

#[global] Instance numberGiven_dec (x : option Q) : Decision (numberGiven x).
Proof.
  destruct x as [q|].
  - destruct (Qeq_dec q 0) as [Hz|Hz].
    + right. intros (q' & Hq & Hne). injection Hq as <-. by apply Hne.
    + left. by exists q.
  - right. by intros (q & Hq & _).
Defined.

#[global] Instance textGiven_dec (x : option string) : Decision (textGiven x).
Proof.
  destruct x as [s|].
  - destruct (decide (s = EmptyString)) as [Hz|Hz].
    + right. intros (s' & Hs & Hne). injection Hs as <-. by apply Hne.
    + left. by exists s.
  - right. by intros (s & Hs & _).
Defined.

(** The seven things the score looks at, with what each asks of a record
    and what each is worth. *)
Inductive criterion :=
  | Appraisal | Discount | Area | Occupancy | Closing | Address | Modality.

Definition meets (p : Property) (c : criterion) : Prop :=
  match c with
  | Appraisal => numberGiven (avaliacao p)
  | Discount => numberGiven (desconto p)
  | Area => textGiven (area p)
  | Occupancy => ocupacao p ≠ "desconhecido"%string
  | Closing => textGiven (encerramento p)
  | Address => (20 < JS.length (endereco p))%nat
  | Modality =>
      modalidade p ≠ EmptyString ∧ modalidade p ≠ "Leilão"%string
  end.

Definition points (c : criterion) : Z :=
  match c with
  | Appraisal | Discount => 3
  | Area | Occupancy => 2
  | Closing | Address | Modality => 1
  end.

#[global] Instance meets_dec (p : Property) (c : criterion) :
  Decision (meets p c).
Proof. destruct c; simpl; apply _. Defined.

(** What a record earns for one criterion. *)
Definition earned (p : Property) (c : criterion) : Z :=
  if decide (meets p c) then points c else 0.

(** The replacement rule in the words of the specification. *)
Definition replaceRule (existing newProp : Property) : Prop :=
  scoreProperty existing < scoreProperty newProp
  ∨ (scoreProperty newProp = scoreProperty existing
     ∧ ((descontoPresent newProp = true ∧ descontoPresent existing = false)
        ∨ (avaliacaoPresent newProp = true
           ∧ avaliacaoPresent existing = false))).

(** The filter in the words of the specification. *)
Definition withinFilters (p : Property) : Prop :=
  ∃ d, desconto p = Some d ∧ (MIN_DISCOUNT <= d)%Q ∧ (lance p <= MAX_PRICE)%Q.

(** The three sort keys: a record is a priority record when its
    [prioridade] is [true], and a missing discount counts as 0. *)
Definition isPriority (p : Property) : bool :=
  bool_decide (prioridade p = Some true).
Definition discountKey (p : Property) : Q :=
  match desconto p with
  | Some discount => discount
  | None => 0
  end.

(** [a] may stand before [b]: priority first, then the larger discount,
    then the lower price. *)
Definition rankedBefore (a b : Property) : Prop :=
  (isPriority a = true ∧ isPriority b = false)
  ∨ (isPriority a = isPriority b
     ∧ ((discountKey b < discountKey a)%Q
        ∨ ((discountKey a == discountKey b)%Q ∧ (lance a <= lance b)%Q))).

(** [a] and [b] compare equal on all three keys. *)
Definition sameRank (a b : Property) : bool :=
  Bool.eqb (isPriority a) (isPriority b)
  && Qeq_bool (discountKey a) (discountKey b)
  && Qeq_bool (lance a) (lance b).

(** The order of the three keys as a boolean relation. *)
Definition rankLeb (a b : Property) : bool :=
  if Bool.eqb (isPriority a) (isPriority b) then
    if Qeq_bool (discountKey a) (discountKey b)
    then Qle_bool (lance a) (lance b)
    else Qle_bool (discountKey b) (discountKey a)
  else isPriority a.

(** Every record carries a boolean [prioridade], as every scraper sets it. *)
Definition prioritySet (l : list Property) : Prop :=
  Forall (λ p, prioridade p ≠ None) l.

(** The deduplication key of a record. *)
Definition normalizedAddress `{Externals} (p : Property) : string :=
  normalizeText (endereco p).

(** No two entries at distinct positions reach the similarity threshold. *)
Definition pairwiseDissimilar `{Externals} (addresses : list string) : Prop :=
  ∀ i j x y, i ≠ j → addresses !! i = Some x → addresses !! j = Some y →
             similar x y = false.

(** Each entry is below the threshold against every entry added before it:
    the comparison the loop makes, [compareTwoStrings(later, earlier)]. *)
Definition dissimilarToEarlier `{Externals} (addresses : list string) : Prop :=
  ∀ i j x y, (i < j)%nat → addresses !! i = Some x → addresses !! j = Some y →
             similar y x = false.

(** Of any two entries at distinct positions, one is below the threshold
    against the other.  [compareTwoStrings] of string-similarity is
    symmetric, and for a symmetric similarity this is [pairwiseDissimilar]. *)
Definition dissimilarOneWay `{Externals} (addresses : list string) : Prop :=
  ∀ i j x y, i ≠ j → addresses !! i = Some x → addresses !! j = Some y →
             similar x y = false ∨ similar y x = false.

(** No input record would replace one whose address it reaches the
    threshold against. *)
Definition noSimilarReplacement `{Externals} (allProperties : list Property)
  : Prop :=
  ∀ a b, a ∈ allProperties → b ∈ allProperties →
         similar (normalizedAddress b) (normalizedAddress a) = true →
         shouldReplace a b = false.

(** Similarity does not chain on the input: when the address of a record
    reaches the threshold against that of a second record, and that one
    against that of a third, the first reaches it against the third. *)
Definition chainFree `{Externals} (allProperties : list Property) : Prop :=
  ∀ a b c, a ∈ allProperties → b ∈ allProperties → c ∈ allProperties →
           similar (normalizedAddress a) (normalizedAddress b) = true →
           similar (normalizedAddress b) (normalizedAddress c) = true →
           similar (normalizedAddress a) (normalizedAddress c) = true.

(** [q] is [p] with at most the [novo] flag changed. *)
Definition sameExceptNovo (p q : Property) : Prop :=
  id q = id p ∧ tipo q = tipo p ∧ bairro q = bairro p
  ∧ endereco q = endereco p ∧ lance q = lance p ∧ avaliacao q = avaliacao p
  ∧ desconto q = desconto p ∧ modalidade q = modalidade p
  ∧ encerramento q = encerramento p ∧ ocupacao q = ocupacao p
  ∧ area q = area p ∧ fonte q = fonte p ∧ link q = link p
  ∧ prioridade q = prioridade p ∧ semVagas q = semVagas p
  ∧ alertas q = alertas p ∧ quartos q = quartos p ∧ vagas q = vagas p
  ∧ precoM2 q = precoM2 p ∧ mediaM2Bairro q = mediaM2Bairro p
  ∧ descontoReal q = descontoReal p ∧ score q = score p
  ∧ scoreBreakdown q = scoreBreakdown p.

(** ** Sample records *)

Module Examples.

Definition listing (i neighbourhood e : string) (price : Q)
  (appraisal discount : option Q) (size : option string) : Property :=
  {| id := i; tipo := "Apartamento"; bairro := neighbourhood; endereco := e;
     lance := price; avaliacao := appraisal; desconto := discount;
     modalidade := "Leilão"; encerramento := None; ocupacao := "desconhecido";
     area := size; fonte := "Portal Zuk"; link := EmptyString; novo := None;
     prioridade := Some true; semVagas := None; alertas := None;
     quartos := None; vagas := None; precoM2 := None; mediaM2Bairro := None;
     descontoReal := None; score := None; scoreBreakdown := None |}.

(** Records A and C of the end-to-end scenario. *)
Definition recordA : Property :=
  listing "a-1" "Batel" "Rua das Flores, 123 - Batel" 300000
          (Some 500000%Q) (Some 40%Q) None.
Definition recordC : Property :=
  listing "c-1" "Centro" "Av. Central, 45 - Centro" 900000
          (Some 1000000%Q) (Some 10%Q) None.

(** A chain of slightly varying addresses: the second is close to the
    first and to the third, the third is not close to the first. *)
Definition chainFirst : Property :=
  listing "z-1" "Batel" "Rua das Flores, 123 - Batel" 300000
          (Some 500000%Q) (Some 40%Q) None.
Definition chainSecond : Property :=
  listing "l-1" "Batel" "Rua das Flores, 123 - Batel, Ctba" 300000
          (Some 500000%Q) (Some 40%Q) (Some "80m2"%string).
Definition chainThird : Property :=
  listing "c-2" "Batel" "Rua das Flores, 123 - Batel, Curitiba" 300000
          (Some 500000%Q) (Some 40%Q) None.

(** Two records of equal score at one address: one has only the discount,
    the other only the appraised value. *)
Definition onlyDiscount : Property :=
  listing "z-2" "Batel" "Rua das Flores, 123 - Batel" 300000
          None (Some 40%Q) None.
Definition onlyAppraisal : Property :=
  listing "l-2" "Batel" "Rua das Flores, 123 - Batel" 300000
          (Some 500000%Q) None None.

(** A record sold at its appraised value, whose discount is 0, and the
    same record without a discount. *)
Definition atAppraisal : Property :=
  listing "z-3" "Batel" "Rua A, 10" 300000 (Some 300000%Q) (Some 0%Q) None.
Definition noDiscount : Property :=
  listing "z-4" "Batel" "Rua A, 10" 300000 (Some 300000%Q) None None.

(** Addresses on both sides of the threshold against the address of
    record A: 34/40 and 42/50. *)
Definition atThreshold : Property :=
  listing "l-3" "Batel" "Rua das Flores 123 Batel" 300000
          (Some 500000%Q) (Some 40%Q) None.
Definition belowThreshold : Property :=
  listing "l-4" "Batel" "Rua das Flores, 123 - Batel, Ctba - PR" 300000
          (Some 500000%Q) (Some 40%Q) None.



(** A store with two records, the array [current] of both and the array
    [previous] of the first. *)
Definition sampleStore : Store.store :=
  {| Store.objects := [recordA; recordC];
     Store.arrays := [[0; 1]; [0]]%nat |}.

End Examples.

(** ** More string built-ins

    [String.prototype.includes] and [startsWith] compare code units; on
    the UTF-8 encodings of well-formed strings the substring relation is
    the same.  [\d] of a regular expression is an ASCII digit.  A regular
    expression without the [g] flag matches at the leftmost position at
    which it matches at all: [search] tries every suffix in turn. *)

Module JSText.

Definition isDigit (c : ascii) : bool :=
  let n := nat_of_ascii c in
  ((48 <=? n) && (n <=? 57))%nat.

Fixpoint allDigits (s : string) : bool :=
  match s with
  | EmptyString => true
  | String c rest => isDigit c && allDigits rest
  end.

(** [s.startsWith(p)] *)
Fixpoint startsWith (s p : string) {struct p} : bool :=
  match p with
  | EmptyString => true
  | String c p' =>
      match s with
      | EmptyString => false
      | String d s' => Ascii.eqb c d && startsWith s' p'
      end
  end.

(** [s.includes(p)] *)
Fixpoint includes (s p : string) : bool :=
  startsWith s p
  || match s with
     | EmptyString => false
     | String _ rest => includes rest p
     end.

(** [s.padStart(n, c)] for a pad string of one character [c]. *)
Definition padStart (n : nat) (c : ascii) (s : string) : string :=
  (string_of_list_ascii (replicate (n - JS.length s) c) ++ s)%string.

(** The leftmost match of a pattern given by its anchored matcher. *)
Fixpoint search {A : Type} (matchAt : string → option A) (s : string)
  : option A :=
  match matchAt s with
  | Some r => Some r
  | None =>
      match s with
      | EmptyString => None
      | String _ rest => search matchAt rest
      end
  end.

(** [(\d{2})\/]: the two digits and what follows the slash. *)
Definition digits2Slash (s : string) : option (string * string) :=
  match s with
  | String a (String b (String c rest)) =>
      if isDigit a && isDigit b && Ascii.eqb c "/"
      then Some (String a (String b EmptyString), rest)
      else None
  | _ => None
  end.

(** [(\d{1,2})\/]: one or two digits and what follows the slash.  The
    character after the first digit decides: a slash ends the group, a
    digit has to be followed by the slash. *)
Definition digits12Slash (s : string) : option (string * string) :=
  match s with
  | String a (String b rest) =>
      if isDigit a then
        if Ascii.eqb b "/" then Some (String a EmptyString, rest)
        else if isDigit b then
          match rest with
          | String c rest' =>
              if Ascii.eqb c "/"
              then Some (String a (String b EmptyString), rest')
              else None
          | EmptyString => None
          end
        else None
      else None
  | _ => None
  end.

(** [(\d{4})] *)
Definition digits4 (s : string) : option string :=
  match s with
  | String a (String b (String c (String d _))) =>
      if isDigit a && isDigit b && isDigit c && isDigit d
      then Some (String a (String b (String c (String d EmptyString))))
      else None
  | _ => None
  end.

End JSText.

(** ** [Map<string, V>]

    A [Map] is the list of its entries in insertion order, the order of
    [values()]; [set] on a key that is present keeps the entry in place. *)

Module JSMap.
Section Map.
Context {V : Type}.

Fixpoint get (key : string) (m : list (string * V)) : option V :=
  match m with
  | [] => None
  | (k, v) :: rest => if String.eqb k key then Some v else get key rest
  end.

Definition has (key : string) (m : list (string * V)) : bool :=
  match get key m with
  | Some _ => true
  | None => false
  end.

Fixpoint set (key : string) (v : V) (m : list (string * V))
  : list (string * V) :=
  match m with
  | [] => [(key, v)]
  | (k, v') :: rest =>
      if String.eqb k key then (k, v) :: rest else (k, v') :: set key v rest
  end.

Definition values (m : list (string * V)) : list V := map snd m.

End Map.
End JSMap.

(** ** scripts/types.ts and scripts/utils.ts, continued *)

Definition PRIORITY_NEIGHBORHOODS : list string :=
  ["Batel"; "Cabral"; "Mercês"; "Tarumã"; "Jardim das Américas";
   "Jardim Social"; "Centro"]%string.

Definition isPriorityNeighborhood `{Externals} (bairro : string) : bool :=
  existsb
    (λ n,
       JSText.includes (String_toLowerCase bairro) (String_toLowerCase n)
       || JSText.includes (String_toLowerCase n) (String_toLowerCase bairro))
    PRIORITY_NEIGHBORHOODS.

(** The anchored match of [/(\d{1,2})\/(\d{1,2})\/(\d{4})/]:
    day, month and year. *)
Definition matchBRDate (s : string) : option (string * string * string) :=
  match JSText.digits12Slash s with
  | Some (day, afterDay) =>
      match JSText.digits12Slash afterDay with
      | Some (month, afterMonth) =>
          match JSText.digits4 afterMonth with
          | Some year => Some (day, month, year)
          | None => None
          end
      | None => None
      end
  | None => None
  end.

Definition parseBRDate (dateStr : string) : option string :=
  match JSText.search matchBRDate dateStr with
  | None => None
  | Some (day, month, year) =>
      Some (year ++ "-" ++ JSText.padStart 2 "0" month
                 ++ "-" ++ JSText.padStart 2 "0" day)%string
  end.

(** ** scripts/scrape.ts: the stand-alone scraper

    Its own [Property] has no nullable number and no optional field. *)

Class ScrapeExternals := {
  String_replace_white_space : string → string
}.

Module Scrape.

Record Property := {
  id : string;
  tipo : string;
  bairro : string;
  endereco : string;
  lance : Q;
  avaliacao : Q;
  desconto : Q;
  modalidade : string;
  encerramento : option string;
  ocupacao : string;
  area : string;
  fonte : string;
  link : string;
  prioridade : bool
}.

Definition PRIORITY_BAIRROS : list string :=
  ["Água Verde"; "Batel"; "Bigorrilho"; "Centro"; "Portão"; "Rebouças";
   "Alto da XV"; "Cristo Rei"; "Jardim Social"; "Juvevê"; "Hugo Lange";
   "Cabral"; "Boa Vista"; "Bacacheri"; "Tarumã"]%string.

Definition MAX_PRICE : Q := 800000.
Definition MIN_DISCOUNT : Q := 40.

Definition normalize `{Externals} (s : string) : string :=
  String_trim
    (String_toLowerCase
       (String_replace_combining_marks (String_normalize_NFD s))).

Definition PRIORITY_BAIRROS_NORMALIZED `{Externals} : list string :=
  map normalize PRIORITY_BAIRROS.

(** The anchored match of [/(\d{2})\/(\d{2})\/(\d{4})/]. *)
Definition matchDate (s : string) : option (string * string * string) :=
  match JSText.digits2Slash s with
  | Some (day, afterDay) =>
      match JSText.digits2Slash afterDay with
      | Some (month, afterMonth) =>
          match JSText.digits4 afterMonth with
          | Some year => Some (day, month, year)
          | None => None
          end
      | None => None
      end
  | None => None
  end.

Definition parseDate (s : string) : option string :=
  match JSText.search matchDate s with
  | None => None
  | Some (day, month, year) =>
      Some (year ++ "-" ++ month ++ "-" ++ day)%string
  end.

Definition isPriority `{Externals} (bairro : string) : bool :=
  let n := normalize bairro in
  existsb (λ p, JSText.includes n p || JSText.includes p n)
          PRIORITY_BAIRROS_NORMALIZED.

Definition keeps (p : Property) : bool :=
  if JS.lt MAX_PRICE (lance p) then false
  else if JS.lt 0 (desconto p) && JS.lt (desconto p) MIN_DISCOUNT then false
  else if String.eqb (fonte p) "Caixa Econômica" && Qeq_bool (desconto p) 0
  then false
  else true.

Definition filterProperties (properties : list Property) : list Property :=
  List.filter keeps properties.

Section Deduplicate.
Context `{Externals} `{ScrapeExternals}.

Definition dedupKey (p : Property) : string :=
  String_replace_white_space (normalize (endereco p)).

(** One iteration of the loop on the map [seen]. *)
Definition dedupStep (seen : list (string * Property)) (p : Property)
  : list (string * Property) :=
  let key := dedupKey p in
  if negb (JSMap.has key seen)
     || JS.lt (match JSMap.get key seen with
               | Some q => desconto q
               | None => 0
               end)
              (desconto p)
  then JSMap.set key p seen
  else seen.

Definition deduplicateProperties (properties : list Property)
  : list Property :=
  JSMap.values (foldl dedupStep [] properties).

End Deduplicate.

(** The comparator of [sortProperties]. *)
Definition compareFn (a b : Property) : Q :=
  if negb (Bool.eqb (prioridade a) (prioridade b)) then
    if prioridade a then -1 else 1
  else desconto b - desconto a.

Definition sortProperties (properties : list Property) : list Property :=
  JS.Array_sort compareFn properties.

(** The processing steps of [main] on the scraped records. *)
Definition process `{Externals} `{ScrapeExternals}
  (allProperties : list Property) : list Property :=
  let filtered := filterProperties allProperties in
  let deduped := deduplicateProperties filtered in
  sortProperties deduped.

(** The order of the two sort keys, in words and as a boolean relation. *)
Definition rankedBefore (a b : Property) : Prop :=
  (prioridade a = true ∧ prioridade b = false)
  ∨ (prioridade a = prioridade b ∧ (desconto b <= desconto a)%Q).

Definition rankLeb (a b : Property) : bool :=
  if Bool.eqb (prioridade a) (prioridade b)
  then Qle_bool (desconto b) (desconto a)
  else prioridade a.

Definition sameRank (a b : Property) : bool :=
  Bool.eqb (prioridade a) (prioridade b)
  && Qeq_bool (desconto a) (desconto b).

End Scrape.

(** A date in the form [YYYY-MM-DD]: digits around two hyphens. *)
Definition isoShaped (r : string) : Prop :=
  ∃ year month day,
    r = (year ++ "-" ++ month ++ "-" ++ day)%string
    ∧ String.length year = 4%nat ∧ String.length month = 2%nat
    ∧ String.length day = 2%nat
    ∧ JSText.allDigits year = true ∧ JSText.allDigits month = true
    ∧ JSText.allDigits day = true.

(** A day or a month in two digits, with a leading zero where it has one. *)
Definition zeroPadded (x : string) : string :=
  if (String.length x =? 1)%nat then String "0" x else x.

(** One or two digits. *)
Definition digits12 (s : string) : Prop :=
  (String.length s = 1%nat ∨ String.length s = 2%nat)
  ∧ JSText.allDigits s = true.

(** Exactly [n] digits. *)
Definition digitsN (n : nat) (s : string) : Prop :=
  String.length s = n ∧ JSText.allDigits s = true.

(** The sample records in the stand-alone scraper's record type. *)
Module ScrapeExamples.

Definition listing (i e : string) (price discount : Q) (source : string)
  (priority : bool) : Scrape.Property :=
  {| Scrape.id := i; Scrape.tipo := "Apartamento"; Scrape.bairro := "Batel";
     Scrape.endereco := e; Scrape.lance := price;
     Scrape.avaliacao := 500000; Scrape.desconto := discount;
     Scrape.modalidade := "Leilão"; Scrape.encerramento := None;
     Scrape.ocupacao := "desconhecido"; Scrape.area := EmptyString;
     Scrape.fonte := source; Scrape.link := EmptyString;
     Scrape.prioridade := priority |}.

Definition zukFlores : Scrape.Property :=
  listing "zuk-1" "Rua das Flores, 123 - Batel" 300000 40 "Portal Zuk" true.
Definition caixaFlores : Scrape.Property :=
  listing "caixa-1" "RUA DAS FLORES,123 - BATEL" 250000 50
          "Caixa Econômica" true.
Definition zukCentral : Scrape.Property :=
  listing "zuk-2" "Av. Central, 45 - Centro" 700000 45 "Portal Zuk" false.
Definition zukUnknown : Scrape.Property :=
  listing "zuk-3" "Rua Sem Avaliacao, 1" 100000 0 "Portal Zuk" false.

Definition externals : ScrapeExternals :=
  Build_ScrapeExternals AsciiText.removeWhiteSpace.

End ScrapeExamples.

(** ** Occupancy in the three scrapers

    Each scraper reads the occupancy off a text it has put in lower case:
    [obs], the text of the whole element, in [parseCaixaProperty];
    [ocupacaoText], the text of the occupancy element, in
    [parseZukProperty]; [observacoes], the text of the observations, in
    [parseLeilaoImovelProperty].  The functions below take that text. *)

Module Caixa.

Definition ocupacao (obs : string) : string :=
  if JSText.includes obs "ocupado" then "ocupado"
  else if JSText.includes obs "desocupado" || JSText.includes obs "livre"
  then "desocupado"
  else "desconhecido".

End Caixa.

Module Zuk.

Definition ocupacao (ocupacaoText : string) : string :=
  if JSText.includes ocupacaoText "desocupado" then "desocupado"
  else if JSText.includes ocupacaoText "ocupado" then "ocupado"
  else "desconhecido".

End Zuk.

Module LeilaoImovel.

Definition ocupacao (observacoes : string) : string :=
  if JSText.includes observacoes "imóvel ocupado"
     || JSText.includes observacoes "imovel ocupado"
  then "ocupado"
  else if JSText.includes observacoes "desocupado" then "desocupado"
  else "desconhecido".

End LeilaoImovel.

(** * Properties *)

(** ** Filters *)

Lemma Qle_bool_false (x y : Q) : Qle_bool x y = false ↔ (y < x)%Q.
Proof.
  split; intros Hxy.
  - apply Qnot_le_lt. intros Hle. apply Qle_bool_iff in Hle. congruence.
  - destruct (Qle_bool x y) eqn:E; [|done].
    apply Qle_bool_iff in E. exfalso. eapply Qlt_not_le; eauto.
Qed.

Lemma Qeq_bool_false (x y : Q) : Qeq_bool x y = false ↔ ¬ (x == y)%Q.
Proof.
  split.
  - intros E Hxy. apply Qeq_bool_iff in Hxy. congruence.
  - intros Hne. destruct (Qeq_bool x y) eqn:E; [|done].
    apply Qeq_bool_iff in E. contradiction.
Qed.

(** C8. [meetsFilters] accepts exactly the records whose discount is not
    null and at least [MIN_DISCOUNT] (40) and whose price is at most
    [MAX_PRICE] (800000).  Scenario record A (discount 40, price 300000)
    passes; scenario record C (discount 10, price 900000) is rejected. *)
Theorem meetsFilters_exactly :
  (∀ p : Property, meetsFilters p = true ↔ withinFilters p)
  ∧ meetsFilters Examples.recordA = true
  ∧ meetsFilters Examples.recordC = false.
Proof.
  split; [|split; reflexivity].
  intros p. unfold meetsFilters, withinFilters, JS.lt. split.
  - destruct (desconto p) as [d|]; [|done].
    destruct (Qle_bool MIN_DISCOUNT d) eqn:Hd; [|done].
    destruct (Qle_bool (lance p) MAX_PRICE) eqn:Hl; [|done].
    intros _. exists d. split; [done|].
    split; by apply Qle_bool_iff.
  - intros (d & -> & Hd & Hl).
    apply Qle_bool_iff in Hd, Hl. by rewrite Hd, Hl.
Qed.

(** ** Completeness score *)

Lemma truthy_number_given (x : option Q) :
  JS.truthy_number x = true ↔ numberGiven x.
Proof.
  unfold JS.truthy_number, numberGiven. destruct x as [q|].
  - rewrite negb_true_iff. split.
    + intros Hq. exists q. split; [done|]. by apply Qeq_bool_false.
    + intros (q' & Hq & Hne). injection Hq as <-. by apply Qeq_bool_false.
  - split; [done|]. by intros (q & Hq & _).
Qed.

Lemma truthy_string_nonempty (s : string) :
  JS.truthy_string s = true ↔ s ≠ EmptyString.
Proof.
  unfold JS.truthy_string. rewrite negb_true_iff.
  destruct (String.eqb_spec s EmptyString); split; done.
Qed.

Lemma truthy_opt_string_given (x : option string) :
  JS.truthy_opt_string x = true ↔ textGiven x.
Proof.
  unfold JS.truthy_opt_string, textGiven. destruct x as [s|].
  - rewrite truthy_string_nonempty. split.
    + intros Hs. by exists s.
    + intros (s' & Hs & Hne). by injection Hs as <-.
  - split; [done|]. by intros (s & Hs & _).
Qed.

Lemma earned_if (p : Property) (c : criterion) (test : bool) :
  (test = true ↔ meets p c) →
  earned p c = if test then points c else 0.
Proof.
  intros Htest. unfold earned.
  destruct (decide (meets p c)) as [Hm|Hm], test; try done.
  - apply Htest in Hm. discriminate Hm.
  - destruct Hm. by apply Htest.
Qed.

Lemma earned_mono (p q : Property) (c : criterion) :
  (meets p c → meets q c) → earned p c ≤ earned q c.
Proof.
  intros Himp. unfold earned.
  destruct (decide (meets p c)) as [Hp|Hp], (decide (meets q c)) as [Hq|Hq];
    try lia; [by destruct Hq; apply Himp|by destruct c].
Qed.

Lemma earned_strict (p q : Property) (c : criterion) :
  meets q c → ¬ meets p c → earned p c < earned q c.
Proof.
  intros Hq Hp. unfold earned.
  rewrite (decide_True _ _ Hq), (decide_False _ _ Hp). by destruct c.
Qed.

(** C4 (amended). The completeness score is the sum of 3 for an appraised
    value and 3 for a discount that are given and are not 0, 2 for an area
    that is given and is not empty, 2 for an occupancy other than
    'desconhecido', 1 for a closing date that is given and is not empty,
    1 for an address of more than 20 characters and 1 for a sale modality
    that is neither empty nor 'Leilão'.  It lies between 0 and 13; a record
    that meets every criterion another meets scores at least as high, and
    strictly higher when it meets one more. *)
Theorem scoreProperty_weighted_sum (p : Property) :
  scoreProperty p
  = earned p Appraisal + earned p Discount + earned p Area
    + earned p Occupancy + earned p Closing + earned p Address
    + earned p Modality
  ∧ 0 ≤ scoreProperty p ≤ 13
  ∧ ∀ q : Property,
      (∀ c, meets p c → meets q c) →
      scoreProperty p ≤ scoreProperty q
      ∧ ((∃ c, meets q c ∧ ¬ meets p c) → scoreProperty p < scoreProperty q).
Proof.
  assert (∀ r : Property,
            scoreProperty r
            = earned r Appraisal + earned r Discount + earned r Area
              + earned r Occupancy + earned r Closing + earned r Address
              + earned r Modality) as Hsum.
  { intros r.
    rewrite (earned_if r Appraisal _ (truthy_number_given (avaliacao r))).
    rewrite (earned_if r Discount _ (truthy_number_given (desconto r))).
    rewrite (earned_if r Area _ (truthy_opt_string_given (area r))).
    rewrite (earned_if r Closing _ (truthy_opt_string_given (encerramento r))).
    rewrite (earned_if r Occupancy
               (negb (String.eqb (ocupacao r) "desconhecido"))).
    2:{ simpl. rewrite negb_true_iff.
        destruct (String.eqb_spec (ocupacao r) "desconhecido"); split; done. }
    rewrite (earned_if r Address (20 <? JS.length (endereco r))%nat)
      by apply Nat.ltb_lt.
    rewrite (earned_if r Modality
               (JS.truthy_string (modalidade r)
                && negb (String.eqb (modalidade r) "Leilão"))).
    2:{ simpl. rewrite andb_true_iff, truthy_string_nonempty, negb_true_iff.
        destruct (String.eqb_spec (modalidade r) "Leilão"); split;
          intros [? ?]; done. }
    unfold scoreProperty, points.
    repeat match goal with
           | |- context [if ?b then _ else _] => destruct b
           end; lia. }
  split; [apply Hsum|]. split.
  - rewrite Hsum. unfold earned, points.
    repeat match goal with
           | |- context [decide ?P] => destruct (decide P)
           end; lia.
  - intros q Hle.
    pose proof (earned_mono p q Appraisal (Hle Appraisal)).
    pose proof (earned_mono p q Discount (Hle Discount)).
    pose proof (earned_mono p q Area (Hle Area)).
    pose proof (earned_mono p q Occupancy (Hle Occupancy)).
    pose proof (earned_mono p q Closing (Hle Closing)).
    pose proof (earned_mono p q Address (Hle Address)).
    pose proof (earned_mono p q Modality (Hle Modality)).
    rewrite !Hsum. split; [lia|].
    intros (c & Hq & Hp). pose proof (earned_strict p q c Hq Hp).
    destruct c; lia.
Qed.

(** ** Stable insertion sort *)

Section SortFacts.
Context {A : Type}.
Implicit Types (leb : A → A → bool) (l s : list A) (x y : A).

Lemma insert_by_perm leb x s : JS.insert_by leb x s ≡ₚ x :: s.
Proof.
  induction s as [|y s IH]; simpl; [done|].
  destruct (leb x y); [done|].
  rewrite IH. apply Permutation_swap.
Qed.

Lemma sort_by_perm leb l : JS.sort_by leb l ≡ₚ l.
Proof.
  induction l as [|x l IH]; simpl; [done|].
  fold (JS.sort_by leb l). by rewrite insert_by_perm, IH.
Qed.

Lemma insert_by_ext leb leb' x s :
  (∀ y, y ∈ s → leb x y = leb' x y) →
  JS.insert_by leb x s = JS.insert_by leb' x s.
Proof.
  induction s as [|y s IH]; simpl; intros Hext; [done|].
  rewrite <- (Hext y) by left.
  destruct (leb x y); [done|].
  f_equal. apply IH. intros z Hz. apply Hext. by right.
Qed.

Lemma sort_by_ext leb leb' l :
  (∀ x y, x ∈ l → y ∈ l → leb x y = leb' x y) →
  JS.sort_by leb l = JS.sort_by leb' l.
Proof.
  induction l as [|x l IH]; simpl; intros Hext; [done|].
  fold (JS.sort_by leb l) (JS.sort_by leb' l).
  rewrite <- IH.
  - apply insert_by_ext. intros y Hy.
    apply Hext; [left|right]. by rewrite <- (sort_by_perm leb l).
  - intros y z Hy Hz. apply Hext; by right.
Qed.

Section Order.
Variable leb : A → A → bool.
Hypothesis leb_total : ∀ x y, leb x y = true ∨ leb y x = true.
Hypothesis leb_trans :
  ∀ x y z, leb x y = true → leb y z = true → leb x z = true.

Let le x y : Prop := leb x y = true.

Lemma insert_by_sorted x s :
  StronglySorted le s → StronglySorted le (JS.insert_by leb x s).
Proof.
  induction 1 as [|y s Hs IH Hy]; simpl.
  - repeat constructor.
  - destruct (leb x y) eqn:Hxy.
    + constructor; [by constructor|].
      constructor; [done|].
      rewrite Forall_forall in Hy. apply Forall_forall. intros z Hz.
      apply leb_trans with y; [done|by apply Hy].
    + constructor; [done|].
      rewrite insert_by_perm. constructor; [|done].
      destruct (leb_total x y); [congruence|done].
Qed.

Lemma sort_by_sorted l : StronglySorted le (JS.sort_by leb l).
Proof.
  induction l as [|x l IH]; simpl; [constructor|].
  by apply insert_by_sorted.
Qed.

Lemma sort_by_of_sorted l : StronglySorted le l → JS.sort_by leb l = l.
Proof.
  induction 1 as [|x l Hl IH Hx]; simpl; [done|].
  fold (JS.sort_by leb l). rewrite IH.
  destruct Hx as [|y l Hxy _]; simpl; [done|].
  unfold le in Hxy. by rewrite Hxy.
Qed.

(** Stability: the records equivalent to [r] keep their relative order. *)
Lemma insert_by_filter r x s :
  List.filter (λ y, leb r y && leb y r) (JS.insert_by leb x s)
  = List.filter (λ y, leb r y && leb y r) (x :: s).
Proof.
  induction s as [|y s IH]; [done|].
  cbn [JS.insert_by]. destruct (leb x y) eqn:Hxy; [done|].
  cbn [List.filter] in *. rewrite IH.
  destruct (leb r x && leb x r) eqn:Hx; [|done].
  destruct (leb r y && leb y r) eqn:Hy; [|done].
  apply andb_true_iff in Hx as [Hrx Hxr], Hy as [Hry Hyr].
  rewrite (leb_trans x r y) in Hxy; done.
Qed.

Lemma sort_by_stable r l :
  List.filter (λ y, leb r y && leb y r) (JS.sort_by leb l)
  = List.filter (λ y, leb r y && leb y r) l.
Proof.
  induction l as [|x l IH]; [done|].
  cbn [JS.sort_by foldr]. fold (JS.sort_by leb l).
  rewrite insert_by_filter. cbn [List.filter]. by rewrite IH.
Qed.

(** A sorted rearrangement that keeps the relative order within every
    class of equivalent records is unique: any stable sort computes
    [sort_by]. *)
Lemma stable_sorted_unique l1 l2 :
  StronglySorted le l1 → StronglySorted le l2 → l1 ≡ₚ l2 →
  (∀ r, List.filter (λ y, leb r y && leb y r) l1
        = List.filter (λ y, leb r y && leb y r) l2) →
  l1 = l2.
Proof.
  assert (∀ x, leb x x = true) as leb_refl
    by (intros x; by destruct (leb_total x x)).
  intros Hs1. revert l2.
  induction Hs1 as [|x l1 Hs1 IH Hx]; intros l2 Hs2 Hp Hf.
  - by apply Permutation_nil_l in Hp.
  - destruct Hs2 as [|y l2 Hs2 Hy].
    + by apply Permutation_nil_r in Hp.
    + assert (x = y) as <-.
      { assert (leb x y = true) as Hxy.
        { assert (y ∈ x :: l1) as Hin by (rewrite Hp; left).
          apply elem_of_cons in Hin as [->|Hin]; [done|].
          rewrite Forall_forall in Hx. by apply Hx. }
        assert (leb y x = true) as Hyx.
        { assert (x ∈ y :: l2) as Hin by (rewrite <- Hp; left).
          apply elem_of_cons in Hin as [->|Hin]; [done|].
          rewrite Forall_forall in Hy. by apply Hy. }
        specialize (Hf x). cbn [List.filter] in Hf.
        rewrite leb_refl, Hxy, Hyx in Hf. simpl in Hf. congruence. }
      f_equal. apply IH; [done|by apply Permutation_cons_inv in Hp|].
      intros r. specialize (Hf r). cbn [List.filter] in Hf.
      destruct (leb r x && leb x r); congruence.
Qed.

Lemma stable_sort_is_sort_by (sort : list A → list A) l :
  StronglySorted le (sort l) → sort l ≡ₚ l →
  (∀ r, List.filter (λ y, leb r y && leb y r) (sort l)
        = List.filter (λ y, leb r y && leb y r) l) →
  sort l = JS.sort_by leb l.
Proof.
  intros Hs Hp Hf. apply stable_sorted_unique; [done|apply sort_by_sorted|..].
  - by rewrite Hp, sort_by_perm.
  - intros r. by rewrite Hf, sort_by_stable.
Qed.

End Order.

Lemma StronglySorted_app (R : A → A → Prop) l s :
  StronglySorted R l → StronglySorted R s →
  (∀ x y, x ∈ l → y ∈ s → R x y) → StronglySorted R (l ++ s).
Proof.
  intros Hl Hs Hls. induction Hl as [|z l Hl IH Hz]; [done|].
  simpl. constructor.
  - apply IH. intros x y Hx Hy. apply Hls; [by right|done].
  - apply Forall_app. split; [done|].
    apply Forall_forall. intros y Hy. apply Hls; [by left|done].
Qed.

Lemma StronglySorted_rev (R : A → A → Prop) l :
  StronglySorted R l → StronglySorted (λ x y, R y x) (rev l).
Proof.
  induction 1 as [|z l Hl IH Hz]; simpl; [constructor|].
  apply StronglySorted_app; [done|repeat constructor|].
  intros x y Hx ->%list_elem_of_singleton.
  rewrite Forall_forall in Hz. apply Hz.
  by rewrite <- Permutation_rev in Hx.
Qed.

(** The sort of the array as a stable insertion of the reversed list. *)
Lemma Array_sort_rev (compareFn : A → A → Q) l :
  JS.Array_sort compareFn l
  = rev (JS.sort_by (λ x y, negb (JS.lt (compareFn x y) 0)) (rev l)).
Proof.
  unfold JS.Array_sort, JS.sort_by. f_equal.
  generalize (@nil A). induction l as [|x l IH]; intros acc; [done|].
  cbn [foldl rev]. by rewrite foldr_app, IH.
Qed.

Lemma Array_sort_perm (compareFn : A → A → Q) l :
  JS.Array_sort compareFn l ≡ₚ l.
Proof.
  rewrite Array_sort_rev, <- Permutation_rev, sort_by_perm.
  by rewrite <- Permutation_rev.
Qed.

(** For a comparator that decides a total preorder [leb], the sort of the
    array is the stable sorted arrangement. *)
Lemma Array_sort_sort_by (compareFn : A → A → Q) leb l :
  (∀ x y, leb x y = true ∨ leb y x = true) →
  (∀ x y z, leb x y = true → leb y z = true → leb x z = true) →
  (∀ x y, x ∈ l → y ∈ l → negb (JS.lt (compareFn x y) 0) = leb y x) →
  JS.Array_sort compareFn l = JS.sort_by leb l.
Proof.
  intros Htotal Htrans Hcmp. rewrite Array_sort_rev.
  rewrite (sort_by_ext _ (λ x y, leb y x)).
  2:{ intros x y Hx Hy. apply Hcmp.
      - by rewrite <- Permutation_rev in Hx.
      - by rewrite <- Permutation_rev in Hy. }
  assert (∀ x y, leb y x = true ∨ leb x y = true) as Htotal'
    by (intros x y; apply Htotal).
  assert (∀ x y z, leb y x = true → leb z y = true → leb z x = true)
    as Htrans' by (intros x y z Hxy Hyz; by apply Htrans with y).
  apply (stable_sorted_unique leb Htotal).
  - apply (StronglySorted_rev (λ x y, leb y x = true)).
    apply (sort_by_sorted (λ x y, leb y x) Htotal' Htrans').
  - apply (sort_by_sorted leb Htotal Htrans).
  - rewrite <- Permutation_rev, !sort_by_perm. by rewrite <- Permutation_rev.
  - intros r. rewrite (sort_by_stable leb Htrans).
    rewrite List.filter_rev.
    rewrite (List.filter_ext _ (λ y, (λ x y, leb y x) r y && (λ x y, leb y x) y r))
      by (intros y; apply andb_comm).
    rewrite (sort_by_stable (λ x y, leb y x) Htrans').
    rewrite List.filter_rev, rev_involutive.
    apply List.filter_ext. intros y. apply andb_comm.
Qed.

Lemma StronglySorted_lookup (R : A → A → Prop) l i j x y :
  StronglySorted R l → (i < j)%nat → l !! i = Some x → l !! j = Some y → R x y.
Proof.
  intros Hl. revert i j. induction Hl as [|z l Hl IH Hz]; intros i j Hij Hi Hj.
  - by rewrite lookup_nil in Hi.
  - destruct j as [|j]; [lia|]. simpl in Hj. destruct i as [|i].
    + simpl in Hi. injection Hi as ->.
      rewrite Forall_forall in Hz. apply Hz.
      eapply list_elem_of_lookup_2. exact Hj.
    + simpl in Hi. apply (IH i j); [lia|done..].
Qed.

End SortFacts.

(** ** The ranking order *)

Lemma Qle_bool_sub (x y : Q) : Qle_bool (x - y) 0 = Qle_bool x y.
Proof.
  destruct (Qle_bool x y) eqn:E.
  - apply Qle_bool_iff in E. apply Qle_bool_iff. lra.
  - apply Qle_bool_false in E. apply Qle_bool_false. lra.
Qed.

Local Ltac rank_cases :=
  repeat match goal with
         | |- context [Bool.eqb ?b ?c] => destruct b eqn:?, c eqn:?; simpl
         | |- context [Qeq_bool ?x ?y] =>
             let E := fresh "E" in
             destruct (Qeq_bool x y) eqn:E;
             [apply Qeq_bool_iff in E | apply Qeq_bool_false in E]
         | |- context [Qle_bool ?x ?y] =>
             let E := fresh "E" in
             destruct (Qle_bool x y) eqn:E;
             [apply Qle_bool_iff in E | apply Qle_bool_false in E]
         end.

Lemma rankLeb_total (a b : Property) : rankLeb a b = true ∨ rankLeb b a = true.
Proof.
  unfold rankLeb.
  destruct (isPriority a), (isPriority b); simpl; auto;
    rank_cases; auto; exfalso; lra.
Qed.

Lemma rankLeb_trans (a b c : Property) :
  rankLeb a b = true → rankLeb b c = true → rankLeb a c = true.
Proof.
  unfold rankLeb.
  destruct (isPriority a), (isPriority b), (isPriority c); simpl; auto;
    try discriminate;
    rank_cases; auto; try discriminate; intros; exfalso; lra.
Qed.



(** On records whose [prioridade] is a boolean, the comparator decides the
    ranking order. *)
Lemma number_or_discountKey (p : Property) :
  (JS.number_or (desconto p) 0 == discountKey p)%Q.
Proof.
  unfold JS.number_or, discountKey. destruct (desconto p) as [d|]; [|done].
  destruct (Qeq_bool d 0) eqn:E; [|done].
  apply Qeq_bool_iff in E. by rewrite E.
Qed.

Lemma compareFn_rankLeb (a b : Property) :
  prioridade a ≠ None → prioridade b ≠ None →
  Qle_bool 0 (compareFn a b) = rankLeb b a.
Proof.
  pose proof (number_or_discountKey a) as Ha.
  pose proof (number_or_discountKey b) as Hb.
  unfold compareFn, rankLeb, isPriority.
  destruct (prioridade a) as [[]|], (prioridade b) as [[]|]; try done;
    intros _ _; try done.
  all: simpl;
    destruct (Qeq_bool (JS.number_or _ _) (JS.number_or _ _)) eqn:E;
    [apply Qeq_bool_iff in E|apply Qeq_bool_false in E]; cbn [negb];
    rank_cases; try done; exfalso; lra.
Qed.

Lemma Array_sort_rankLeb (l : list Property) :
  prioritySet l → JS.Array_sort compareFn l = JS.sort_by rankLeb l.
Proof.
  intros Hl.
  apply Array_sort_sort_by; [apply rankLeb_total|apply rankLeb_trans|].
  intros x y Hx Hy. unfold prioritySet in Hl. rewrite Forall_forall in Hl.
  unfold JS.lt. rewrite negb_involutive.
  apply compareFn_rankLeb; by apply Hl.
Qed.

(** ** The deduplication loop *)

Section DedupFacts.
Context `{Externals}.
Implicit Types (deduplicated processed : list Property) (seen : list string)
  (property existing : Property).

Lemma findSeen_None normalizedAddress seen :
  findSeen normalizedAddress seen = None
  ↔ ∀ a, a ∈ seen → similar normalizedAddress a = false.
Proof.
  unfold findSeen. rewrite list_find_None, Forall_forall.
  split; intros Hs a Ha; specialize (Hs a Ha); by destruct (similar _ a).
Qed.

Lemma findSeen_Some normalizedAddress seen k a :
  findSeen normalizedAddress seen = Some (k, a) →
  seen !! k = Some a ∧ similar normalizedAddress a = true.
Proof. unfold findSeen. rewrite list_find_Some. by intros (Hk & Ha & _). Qed.

Lemma findIndex_Some a deduplicated i existing :
  findIndex a deduplicated = Some (i, existing) →
  deduplicated !! i = Some existing
  ∧ similar (normalizeText (endereco existing)) a = true.
Proof. unfold findIndex. rewrite list_find_Some. by intros (Hi & He & _). Qed.

Lemma dedupStep_fresh deduplicated seen property :
  findSeen (normalizeText (endereco property)) seen = None →
  dedupStep (deduplicated, seen) property
  = (deduplicated ++ [property],
     JS.Set_add (normalizeText (endereco property)) seen).
Proof. intros Hf. unfold dedupStep. by rewrite Hf. Qed.

Lemma dedupStep_duplicate deduplicated seen property k a :
  findSeen (normalizeText (endereco property)) seen = Some (k, a) →
  dedupStep (deduplicated, seen) property
  = match findIndex a deduplicated with
    | Some (i, existing) =>
        if shouldReplace existing property
        then (<[i := property]> deduplicated, seen)
        else (deduplicated, seen)
    | None => (deduplicated, seen)
    end.
Proof. intros Hf. unfold dedupStep. by rewrite Hf. Qed.

(** The three outcomes of an iteration. *)
Lemma dedupStep_cases deduplicated seen property :
  let n := normalizeText (endereco property) in
  ((∀ a, a ∈ seen → similar n a = false)
   ∧ dedupStep (deduplicated, seen) property
     = (deduplicated ++ [property], JS.Set_add n seen))
  ∨ (∃ k a, seen !! k = Some a ∧ similar n a = true
     ∧ ((∃ i existing, deduplicated !! i = Some existing
          ∧ similar (normalizeText (endereco existing)) a = true
          ∧ shouldReplace existing property = true
          ∧ dedupStep (deduplicated, seen) property
            = (<[i := property]> deduplicated, seen))
        ∨ dedupStep (deduplicated, seen) property = (deduplicated, seen))).
Proof.
  intros n. destruct (findSeen n seen) as [[k a]|] eqn:Hf.
  - right. exists k, a. apply findSeen_Some in Hf as Hka.
    destruct Hka as [Hk Ha].
    split; [done|]. split; [done|].
    rewrite (dedupStep_duplicate _ _ _ k a Hf).
    destruct (findIndex a deduplicated) as [[i existing]|] eqn:Hi; [|by right].
    apply findIndex_Some in Hi as [Hi He].
    destruct (shouldReplace existing property) eqn:Hr; [|by right].
    left. by exists i, existing.
  - left. split; [by apply findSeen_None|]. by apply dedupStep_fresh.
Qed.

Lemma dedupLoop_snoc processed property :
  dedupLoop (processed ++ [property]) = dedupStep (dedupLoop processed) property.
Proof. unfold dedupLoop. apply foldl_snoc. Qed.

(** An invariant that holds initially and is kept by [dedupStep] holds of
    the loop's final state. *)
Lemma dedupLoop_ind (P : list Property → list Property * list string → Prop) :
  P [] ([], []) →
  (∀ processed st property,
     P processed st → P (processed ++ [property]) (dedupStep st property)) →
  ∀ allProperties, P allProperties (dedupLoop allProperties).
Proof.
  intros Hnil Hstep allProperties.
  induction allProperties as [|property processed IH] using rev_ind; [done|].
  rewrite dedupLoop_snoc. by apply Hstep.
Qed.

Lemma Set_add_elem x seen : x ∈ JS.Set_add x seen.
Proof.
  unfold JS.Set_add, JS.Set_has. case_bool_decide; [done|].
  apply elem_of_app. right. by left.
Qed.

Lemma Set_add_cases x seen :
  JS.Set_add x seen = seen ∨ JS.Set_add x seen = seen ++ [x].
Proof. unfold JS.Set_add. destruct (JS.Set_has x seen); auto. Qed.

Lemma Set_add_incl x y seen : y ∈ seen → y ∈ JS.Set_add x seen.
Proof.
  destruct (Set_add_cases x seen) as [->| ->]; [done|].
  intros Hy. apply elem_of_app. by left.
Qed.

Lemma insert_replaced_perm {A} (l : list A) i (x e : A) :
  l !! i = Some e → <[i := x]> l ++ [e] ≡ₚ l ++ [x].
Proof.
  intros Hi.
  rewrite insert_take_drop by (by eapply lookup_lt_Some).
  rewrite <- (take_drop_middle l i e Hi) at 3.
  rewrite <- !app_assoc. simpl.
  apply Permutation_app_head.
  rewrite <- !Permutation_cons_append.
  apply Permutation_swap.
Qed.

(** Every processed record is either in [deduplicated] or was dropped. *)
Lemma dedupLoop_partition allProperties :
  ∃ dropped, (dedupLoop allProperties).1 ++ dropped ≡ₚ allProperties.
Proof.
  apply (dedupLoop_ind
           (λ processed st, ∃ dropped, st.1 ++ dropped ≡ₚ processed)).
  - by exists [].
  - intros processed [deduplicated seen] property [dropped Hd]. simpl in Hd.
    destruct (dedupStep_cases deduplicated seen property)
      as [[_ ->]|(k & a & _ & _ & [(i & existing & Hi & _ & _ & ->)| ->])]; simpl.
    + exists dropped. rewrite <- Hd, <- !app_assoc.
      apply Permutation_app_head, Permutation_app_comm.
    + exists (existing :: dropped).
      rewrite <- Hd.
      change (existing :: dropped) with ([existing] ++ dropped).
      rewrite app_assoc, (insert_replaced_perm _ _ _ _ Hi), <- !app_assoc.
      apply Permutation_app_head, Permutation_app_comm.
    + exists (property :: dropped). rewrite <- Hd, <- !app_assoc.
      apply Permutation_app_head.
      change (property :: dropped) with ([property] ++ dropped).
      apply Permutation_app_comm.
Qed.

End DedupFacts.

(** ** Invariants of the seen set and of the emitted list *)

Section DedupInvariants.
Context `{Externals}.
Implicit Types (deduplicated processed : list Property) (seen : list string)
  (property existing : Property).

Lemma dissimilarToEarlier_snoc seen n :
  dissimilarToEarlier seen →
  (∀ a, a ∈ seen → similar n a = false) →
  dissimilarToEarlier (seen ++ [n]).
Proof.
  intros Hs Hn i j x y Hij Hi Hj.
  apply lookup_snoc_Some in Hj as [[Hlt Hj]|[-> <-]].
  - apply (Hs i j); [done| |done].
    rewrite lookup_app_l in Hi by lia. done.
  - apply Hn. rewrite lookup_app_l in Hi by done.
    by eapply list_elem_of_lookup_2.
Qed.

Lemma dissimilarToEarlier_prefix (l k : list string) :
  dissimilarToEarlier (l ++ k) → dissimilarToEarlier l.
Proof.
  intros Hs i j x y Hij Hi Hj.
  apply (Hs i j); [done|by apply lookup_app_l_Some..].
Qed.

Lemma dissimilarToEarlier_oneWay (l : list string) :
  dissimilarToEarlier l → dissimilarOneWay l.
Proof.
  intros Hs i j x y Hij Hi Hj.
  destruct (decide (i < j)%nat).
  - right. by apply (Hs i j).
  - left. apply (Hs j i); [lia|done..].
Qed.

Lemma pairwiseDissimilar_toEarlier (l : list string) :
  pairwiseDissimilar l → dissimilarToEarlier l.
Proof.
  intros Hs i j x y Hij Hi Hj. apply (Hs j i); [lia|done..].
Qed.

Lemma dissimilarOneWay_symmetric (l : list string) :
  (∀ x y, (compareTwoStrings x y == compareTwoStrings y x)%Q) →
  dissimilarOneWay l → pairwiseDissimilar l.
Proof.
  intros Hsym Hl i j x y Hij Hi Hj.
  assert (similar y x = similar x y) as Hxy.
  { unfold similar. destruct (Qle_bool _ (compareTwoStrings x y)) eqn:E.
    - apply Qle_bool_iff. apply Qle_bool_iff in E. by rewrite Hsym.
    - apply Qle_bool_false. apply Qle_bool_false in E. by rewrite Hsym. }
  destruct (Hl i j x y Hij Hi Hj); congruence.
Qed.

Lemma dissimilarOneWay_perm (l k : list string) :
  l ≡ₚ k → dissimilarOneWay l → dissimilarOneWay k.
Proof.
  intros Hp Hl i j x y Hij Hi Hj.
  symmetry in Hp. apply Permutation_inj in Hp as [_ (f & Hf & Hlk)].
  rewrite Hlk in Hi, Hj.
  apply (Hl (f i) (f j)); [|done..].
  intros Heq. by apply Hij, Hf.
Qed.

(** The seen set never holds an address that reached the threshold against
    an address added before it. *)
Lemma dedupLoop_seen_dissimilar allProperties :
  dissimilarToEarlier (dedupLoop allProperties).2.
Proof.
  apply (dedupLoop_ind (λ _ st, dissimilarToEarlier st.2)).
  - intros i j x y _ Hi. simpl in Hi. by rewrite lookup_nil in Hi.
  - intros processed [deduplicated seen] property Hs. simpl in Hs.
    destruct (dedupStep_cases deduplicated seen property)
      as [[Hn ->]|(k & a & _ & _ & [(i & existing & _ & _ & _ & ->)| ->])];
      simpl; [|done..].
    destruct (Set_add_cases (normalizeText (endereco property)) seen)
      as [->| ->]; [done|].
    by apply dissimilarToEarlier_snoc.
Qed.

(** Every emitted record is represented in the seen set: by its own
    normalized address or by one it reaches the threshold against. *)
Lemma dedupLoop_represented allProperties p :
  p ∈ (dedupLoop allProperties).1 →
  normalizeText (endereco p) ∈ (dedupLoop allProperties).2
  ∨ ∃ a, a ∈ (dedupLoop allProperties).2
         ∧ similar (normalizeText (endereco p)) a = true.
Proof.
  revert p.
  apply (dedupLoop_ind (λ _ st, ∀ p, p ∈ st.1 →
    normalizeText (endereco p) ∈ st.2
    ∨ ∃ a, a ∈ st.2 ∧ similar (normalizeText (endereco p)) a = true)).
  - intros p Hp. simpl in Hp. by apply elem_of_nil in Hp.
  - intros processed [deduplicated seen] property IH p. simpl in IH.
    destruct (dedupStep_cases deduplicated seen property)
      as [[Hn ->]|(k & a & Hk & Ha & [(i & existing & Hi & _ & _ & ->)| ->])];
      simpl; [| |by apply IH].
    + intros [Hp| ->%list_elem_of_singleton]%elem_of_app.
      * destruct (IH p Hp) as [Hin|(a & Hin & Ha)].
        -- left. by apply Set_add_incl.
        -- right. exists a. split; [by apply Set_add_incl|done].
      * left. apply Set_add_elem.
    + intros (j & Hj)%list_elem_of_lookup_1.
      apply list_lookup_insert_Some in Hj as [(_ & <- & _)|[_ Hj]].
      * right. exists a. split; [by eapply list_elem_of_lookup_2|done].
      * apply IH. by eapply list_elem_of_lookup_2.
Qed.

Lemma similar_sym (x y : string) :
  (∀ x y, (compareTwoStrings x y == compareTwoStrings y x)%Q) →
  similar x y = similar y x.
Proof.
  intros Hsym. unfold similar.
  destruct (Qle_bool _ (compareTwoStrings y x)) eqn:E.
  - apply Qle_bool_iff. apply Qle_bool_iff in E. by rewrite Hsym.
  - apply Qle_bool_false. apply Qle_bool_false in E. by rewrite Hsym.
Qed.

Lemma pairwiseDissimilar_oneWay (l : list string) :
  pairwiseDissimilar l → dissimilarOneWay l.
Proof. intros Hl i j x y Hij Hi Hj. left. by apply (Hl i j). Qed.

Lemma pairwiseDissimilar_snoc (l : list string) (n : string) :
  pairwiseDissimilar l →
  (∀ x, x ∈ l → similar x n = false ∧ similar n x = false) →
  pairwiseDissimilar (l ++ [n]).
Proof.
  intros Hl Hn i j x y Hij Hi Hj.
  apply lookup_snoc_Some in Hi as [[Hilt Hi]|[-> <-]],
    Hj as [[Hjlt Hj]|[-> <-]].
  - by apply (Hl i j).
  - apply Hn. by eapply list_elem_of_lookup_2.
  - apply Hn. by eapply list_elem_of_lookup_2.
  - done.
Qed.

Lemma pairwiseDissimilar_insert (l : list string) (i : nat) (n : string) :
  pairwiseDissimilar l →
  (∀ j x, j ≠ i → l !! j = Some x →
          similar x n = false ∧ similar n x = false) →
  pairwiseDissimilar (<[i := n]> l).
Proof.
  intros Hl Hn j1 j2 x y Hj Hx Hy.
  apply list_lookup_insert_Some in Hx as [(-> & <- & _)|[Hne1 Hx]],
    Hy as [(-> & <- & _)|[Hne2 Hy]].
  - done.
  - by apply (Hn j2 y).
  - by apply (Hn j1 x).
  - by apply (Hl j1 j2).
Qed.

(** When no record replaces one whose address it reaches the threshold
    against, no record is replaced at all: the emitted list holds its
    records in the order of emission, each with its address in the seen
    set. *)
Lemma dedupLoop_no_similar_replacement allProperties :
  (∀ x y, (compareTwoStrings x y == compareTwoStrings y x)%Q) →
  noSimilarReplacement allProperties →
  dissimilarToEarlier
    (map (λ p, normalizeText (endereco p)) (dedupLoop allProperties).1).
Proof.
  intros Hsym Hnr.
  enough ((∀ p, p ∈ (dedupLoop allProperties).1 →
                p ∈ allProperties
                ∧ normalizeText (endereco p) ∈ (dedupLoop allProperties).2)
          ∧ dissimilarToEarlier (dedupLoop allProperties).2
          ∧ dissimilarToEarlier
              (map (λ p, normalizeText (endereco p))
                   (dedupLoop allProperties).1)) as (_ & _ & ?); [done|].
  revert Hnr.
  apply (dedupLoop_ind (λ processed st,
    noSimilarReplacement processed →
    (∀ p, p ∈ st.1 → p ∈ processed ∧ normalizeText (endereco p) ∈ st.2)
    ∧ dissimilarToEarlier st.2
    ∧ dissimilarToEarlier (map (λ p, normalizeText (endereco p)) st.1))).
  - intros _. split; [|split].
    + intros p Hp. simpl in Hp. by apply elem_of_nil in Hp.
    + intros i j x y _ Hi. simpl in Hi. by rewrite lookup_nil in Hi.
    + intros i j x y _ Hi. simpl in Hi. by rewrite lookup_nil in Hi.
  - intros processed [deduplicated seen] property IH Hnr. simpl in IH.
    destruct IH as (Hin & Hs & Hd).
    { intros a b Ha Hb. apply Hnr; apply elem_of_app; by left. }
    destruct (dedupStep_cases deduplicated seen property)
      as [[Hn ->]|(k & a & Hk & Ha & [(i & existing & Hi & He & Hr & _)| ->])];
      simpl.
    + split; [|split].
      * intros p [Hp| ->%list_elem_of_singleton]%elem_of_app.
        -- destruct (Hin p Hp). split; [apply elem_of_app; by left|].
           by apply Set_add_incl.
        -- split; [apply elem_of_app; right; by left|apply Set_add_elem].
      * destruct (Set_add_cases (normalizeText (endereco property)) seen)
          as [->| ->]; [done|].
        by apply dissimilarToEarlier_snoc.
      * rewrite map_app. simpl. apply dissimilarToEarlier_snoc; [done|].
        intros a (p & -> & Hp)%list_elem_of_fmap.
        apply Hn. by apply Hin.
    + exfalso.
      assert (existing ∈ deduplicated) as Hex
        by (by eapply list_elem_of_lookup_2).
      destruct (Hin existing Hex) as [Hproc Hseen].
      apply list_elem_of_lookup_1 in Hseen as [k' Hk'].
      assert (k' = k) as ->.
      { destruct (decide (k' = k)) as [|Hne]; [done|]. exfalso.
        destruct (decide (k' < k)%nat).
        - pose proof (Hs k' k _ _ ltac:(done) Hk' Hk) as Hf.
          rewrite (similar_sym _ _ Hsym) in Hf. congruence.
        - pose proof (Hs k k' _ _ ltac:(lia) Hk Hk') as Hf. congruence. }
      assert (a = normalizeText (endereco existing)) as -> by congruence.
      rewrite Hnr in Hr; [done| | |done].
      * apply elem_of_app. by left.
      * apply elem_of_app. right. by left.
    + split; [|done]. intros p Hp. destruct (Hin p Hp).
      split; [apply elem_of_app; by left|done].
Qed.

(** When similarity does not chain on the input, the emitted records stay
    pairwise below the threshold, replaced or not. *)
Lemma dedupLoop_chain_free allProperties :
  (∀ x y, (compareTwoStrings x y == compareTwoStrings y x)%Q) →
  chainFree allProperties →
  pairwiseDissimilar
    (map (λ p, normalizeText (endereco p)) (dedupLoop allProperties).1).
Proof.
  intros Hsym Hcf.
  enough ((∀ p, p ∈ (dedupLoop allProperties).1 → p ∈ allProperties)
          ∧ (∀ a, a ∈ (dedupLoop allProperties).2 →
                  ∃ r, r ∈ allProperties ∧ a = normalizeText (endereco r))
          ∧ (∀ p, p ∈ (dedupLoop allProperties).1 →
                  normalizeText (endereco p) ∈ (dedupLoop allProperties).2
                  ∨ ∃ a, a ∈ (dedupLoop allProperties).2
                         ∧ similar (normalizeText (endereco p)) a = true)
          ∧ pairwiseDissimilar
              (map (λ p, normalizeText (endereco p))
                   (dedupLoop allProperties).1)) as (_ & _ & _ & ?); [done|].
  revert Hcf.
  apply (dedupLoop_ind (λ processed st,
    chainFree processed →
    (∀ p, p ∈ st.1 → p ∈ processed)
    ∧ (∀ a, a ∈ st.2 → ∃ r, r ∈ processed ∧ a = normalizeText (endereco r))
    ∧ (∀ p, p ∈ st.1 →
            normalizeText (endereco p) ∈ st.2
            ∨ ∃ a, a ∈ st.2 ∧ similar (normalizeText (endereco p)) a = true)
    ∧ pairwiseDissimilar (map (λ p, normalizeText (endereco p)) st.1))).
  - intros _. split; [|split; [|split]].
    + intros p Hp. simpl in Hp. by apply elem_of_nil in Hp.
    + intros a Ha. simpl in Ha. by apply elem_of_nil in Ha.
    + intros p Hp. simpl in Hp. by apply elem_of_nil in Hp.
    + intros i j x y _ Hi. simpl in Hi. by rewrite lookup_nil in Hi.
  - intros processed [deduplicated seen] property IH Hcf. simpl in IH.
    destruct IH as (Hin & Hseen & Hrep & Hd).
    { intros a b c Ha Hb Hc. apply Hcf; apply elem_of_app; by left. }
    assert (property ∈ processed ++ [property]) as Hlast
      by (apply elem_of_app; right; by left).
    assert (∀ p, p ∈ processed → p ∈ processed ++ [property]) as Hold
      by (intros p Hp; apply elem_of_app; by left).
    unfold chainFree, normalizedAddress in Hcf.
    destruct (dedupStep_cases deduplicated seen property)
      as [[Hn ->]|(k & a & Hk & Ha & [(i & existing & Hi & He & Hr & ->)| ->])];
      simpl.
    + split; [|split; [|split]].
      * intros p [Hp| ->%list_elem_of_singleton]%elem_of_app;
          [by apply Hold, Hin|done].
      * intros a Ha.
        destruct (Set_add_cases (normalizeText (endereco property)) seen)
          as [E|E]; rewrite E in Ha.
        -- destruct (Hseen a Ha) as (r & Hr & ->). exists r. auto.
        -- apply elem_of_app in Ha as [Ha| ->%list_elem_of_singleton].
           ++ destruct (Hseen a Ha) as (r & Hr & ->). exists r. auto.
           ++ by exists property.
      * intros p [Hp| ->%list_elem_of_singleton]%elem_of_app.
        -- destruct (Hrep p Hp) as [Hs|(a & Hs & Ha)].
           ++ left. by apply Set_add_incl.
           ++ right. exists a. split; [by apply Set_add_incl|done].
        -- left. apply Set_add_elem.
      * rewrite map_app. simpl. apply pairwiseDissimilar_snoc; [done|].
        intros x (p & -> & Hp)%list_elem_of_fmap.
        assert (similar (normalizeText (endereco property))
                        (normalizeText (endereco p)) = false) as Hf.
        { destruct (Hrep p Hp) as [Hs|(a & Hs & Ha)]; [by apply Hn|].
          destruct (similar (normalizeText (endereco property))
                            (normalizeText (endereco p))) eqn:E; [|done].
          destruct (Hseen a Hs) as (r & Hr & ->).
          rewrite <- (Hn _ Hs). symmetry.
          apply (Hcf property p r); auto. }
        split; [|done]. by rewrite (similar_sym _ _ Hsym).
    + assert (∃ r, r ∈ processed ∧ a = normalizeText (endereco r))
        as (r & Hr' & ->)
        by (apply Hseen; by eapply list_elem_of_lookup_2).
      assert (existing ∈ deduplicated) as Hex
        by (by eapply list_elem_of_lookup_2).
      split; [|split; [|split]].
      * intros p (j & Hj)%list_elem_of_lookup_1.
        apply list_lookup_insert_Some in Hj as [(_ & <- & _)|[_ Hj]]; [done|].
        apply Hold, Hin. by eapply list_elem_of_lookup_2.
      * intros a Ha'. destruct (Hseen a Ha') as (r' & Hr'' & ->).
        exists r'. auto.
      * intros p (j & Hj)%list_elem_of_lookup_1.
        apply list_lookup_insert_Some in Hj as [(_ & <- & _)|[_ Hj]].
        -- right. exists (normalizeText (endereco r)).
           split; [by eapply list_elem_of_lookup_2|done].
        -- apply Hrep. by eapply list_elem_of_lookup_2.
      * change (map ?f (<[i:=property]> deduplicated))
          with (f <$> <[i:=property]> deduplicated).
        rewrite list_fmap_insert. apply pairwiseDissimilar_insert; [done|].
        intros j x Hj Hx. rewrite list_lookup_fmap in Hx.
        destruct (deduplicated !! j) as [q|] eqn:Hq; [|done].
        injection Hx as <-.
        assert (q ∈ deduplicated) as Hqin
          by (by eapply list_elem_of_lookup_2).
        assert (similar (normalizeText (endereco q))
                        (normalizeText (endereco property)) = false) as Hf.
        { destruct (similar (normalizeText (endereco q))
                            (normalizeText (endereco property))) eqn:E;
            [|done].
          assert (similar (normalizeText (endereco q))
                          (normalizeText (endereco existing)) = false) as Hqe.
          { apply (Hd j i); [done|..].
            - change (map ?f deduplicated) with (f <$> deduplicated).
              by rewrite list_lookup_fmap, Hq.
            - change (map ?f deduplicated) with (f <$> deduplicated).
              by rewrite list_lookup_fmap, Hi. }
          rewrite <- Hqe. symmetry.
          apply (Hcf q r existing); auto.
          - apply (Hcf q property r); auto.
          - by rewrite (similar_sym _ _ Hsym). }
        split; [done|]. by rewrite (similar_sym _ _ Hsym).
    + split; [|split; [|done]].
      * intros p Hp. by apply Hold, Hin.
      * intros a' Ha'. destruct (Hseen a' Ha') as (r & Hr & ->).
        exists r. auto.
Qed.

(** A list whose addresses are each below the threshold against the
    earlier ones passes through the loop unchanged. *)
Lemma dedupLoop_dissimilar allProperties :
  dissimilarToEarlier (map (λ p, normalizeText (endereco p)) allProperties) →
  (dedupLoop allProperties).1 = allProperties.
Proof.
  intros Hall.
  enough ((dedupLoop allProperties).1 = allProperties
          ∧ ∀ a, a ∈ (dedupLoop allProperties).2 →
                 a ∈ map (λ p, normalizeText (endereco p)) allProperties)
    as [? _]; [done|].
  revert Hall.
  apply (dedupLoop_ind (λ processed st,
    dissimilarToEarlier (map (λ p, normalizeText (endereco p)) processed) →
    st.1 = processed
    ∧ ∀ a, a ∈ st.2 → a ∈ map (λ p, normalizeText (endereco p)) processed)).
  - intros _. split; [done|]. intros a Ha. simpl in Ha.
    by apply elem_of_nil in Ha.
  - intros processed [deduplicated seen] property IH Hall. simpl in IH.
    rewrite map_app in Hall. simpl in Hall.
    destruct IH as [-> Hseen]; [by eapply dissimilarToEarlier_prefix|].
    assert (∀ a, a ∈ seen →
                 similar (normalizeText (endereco property)) a = false) as Hn.
    { intros a (i & Hi)%Hseen%list_elem_of_lookup_1.
      apply (Hall i (length (map (λ p, normalizeText (endereco p)) processed))).
      - by eapply lookup_lt_Some.
      - by apply lookup_app_l_Some.
      - rewrite lookup_app_r by done. by rewrite Nat.sub_diag. }
    rewrite dedupStep_fresh by (by apply findSeen_None). simpl.
    split; [done|]. intros a Ha. rewrite map_app. apply elem_of_app.
    destruct (Set_add_cases (normalizeText (endereco property)) seen) as [E|E];
      rewrite E in Ha.
    + left. by apply Hseen.
    + apply elem_of_app in Ha as [Ha|Ha]; [left; by apply Hseen|by right].
Qed.

End DedupInvariants.

(** ** Replacement *)

Lemma shouldReplace_rule (existing newProp : Property) :
  shouldReplace existing newProp = true ↔ replaceRule existing newProp.
Proof.
  unfold shouldReplace, replaceRule, descontoPresent, avaliacaoPresent.
  destruct (scoreProperty existing <? scoreProperty newProp) eqn:Hlt.
  - apply Z.ltb_lt in Hlt. split; auto.
  - apply Z.ltb_ge in Hlt.
    destruct (scoreProperty newProp =? scoreProperty existing) eqn:Heq.
    + apply Z.eqb_eq in Heq.
      destruct (JS.truthy_number (desconto newProp)),
        (JS.truthy_number (desconto existing)),
        (JS.truthy_number (avaliacao newProp)),
        (JS.truthy_number (avaliacao existing)); simpl;
        split; try done; try (intros _; right; split; [done|]; auto; fail);
        intros [?|[_ [[? ?]|[? ?]]]]; try done; lia.
    + apply Z.eqb_neq in Heq. split; [done|].
      intros [?|[? _]]; [lia|done].
Qed.

Section DedupClaims.
Context `{Externals}.
Implicit Types (deduplicated processed : list Property) (seen : list string)
  (property existing : Property).

(** C3 (amended). When a record is judged a duplicate of an emitted record,
    it replaces that record exactly when its score is higher, or the scores
    are equal and it supplies the discount, or the appraised value, that
    the emitted record lacks; otherwise the emitted record stays and the
    new one is discarded.  Of two records of equal score, a new record with
    the discount replaces an emitted one without it; an emitted record with
    the discount stays against a new one without it provided the new one
    does not supply an appraised value that the emitted one lacks. *)
Theorem duplicate_replaced_by_rule deduplicated seen property k a i existing :
  findSeen (normalizeText (endereco property)) seen = Some (k, a) →
  findIndex a deduplicated = Some (i, existing) →
  (replaceRule existing property →
   dedupStep (deduplicated, seen) property
   = (<[i := property]> deduplicated, seen))
  ∧ (¬ replaceRule existing property →
     dedupStep (deduplicated, seen) property = (deduplicated, seen))
  ∧ (scoreProperty property = scoreProperty existing →
     descontoPresent property = true → descontoPresent existing = false →
     dedupStep (deduplicated, seen) property
     = (<[i := property]> deduplicated, seen))
  ∧ (scoreProperty property = scoreProperty existing →
     descontoPresent existing = true → descontoPresent property = false →
     avaliacaoPresent property = false ∨ avaliacaoPresent existing = true →
     dedupStep (deduplicated, seen) property = (deduplicated, seen)).
Proof.
  intros Hseen Hfound.
  rewrite (dedupStep_duplicate _ _ _ k a Hseen), Hfound.
  assert (replaceRule existing property →
          (if shouldReplace existing property
           then (<[i := property]> deduplicated, seen)
           else (deduplicated, seen))
          = (<[i := property]> deduplicated, seen)) as Hyes.
  { intros Hr%shouldReplace_rule. by rewrite Hr. }
  assert (¬ replaceRule existing property →
          (if shouldReplace existing property
           then (<[i := property]> deduplicated, seen)
           else (deduplicated, seen))
          = (deduplicated, seen)) as Hno.
  { intros Hr. destruct (shouldReplace existing property) eqn:E; [|done].
    by apply shouldReplace_rule in E. }
  split; [done|]. split; [done|]. split.
  - intros Hs Hn He. apply Hyes. right. split; [done|]. by left.
  - intros Hs He Hn Ha. apply Hno.
    intros [Hlt|[_ [[Hd _]|[Hav Hae]]]]; [lia|congruence|].
    destruct Ha; congruence.
Qed.

(** C6. A record whose normalized address scores exactly 0.85 against a
    seen address is a duplicate: the seen set is unchanged and the emitted
    list keeps its length, with the record at most written over one entry.
    A record that scores below 0.85 against every seen address is appended
    to the emitted list and its normalized address joins the seen set. *)
Theorem threshold_is_inclusive processed property :
  let st := dedupLoop processed in
  let st' := dedupLoop (processed ++ [property]) in
  let n := normalizeText (endereco property) in
  ((∃ a, a ∈ st.2 ∧ (compareTwoStrings n a == 0.85)%Q) →
   st'.2 = st.2
   ∧ length st'.1 = length st.1
   ∧ (st'.1 = st.1 ∨ ∃ i, st'.1 = <[i := property]> st.1))
  ∧ ((∀ a, a ∈ st.2 → (compareTwoStrings n a < 0.85)%Q) →
     st'.1 = st.1 ++ [property]
     ∧ n ∈ st'.2
     ∧ ∀ a, a ∈ st.2 → a ∈ st'.2).
Proof.
  intros st st' n. subst st'. rewrite dedupLoop_snoc. fold st.
  destruct st as [deduplicated seen]. cbn [fst snd]. split.
  - intros (a & Ha & Hsim).
    destruct (dedupStep_cases deduplicated seen property)
      as [[Hn _]|(k & b & _ & _ & [(i & existing & _ & _ & _ & ->)| ->])];
      simpl.
    + specialize (Hn a Ha). unfold similar in Hn. fold n in Hn.
      apply Qle_bool_false in Hn. unfold ADDRESS_SIMILARITY_THRESHOLD in Hn.
      exfalso. lra.
    + split; [done|]. split; [apply length_insert|]. right. by exists i.
    + split; [done|]. split; [done|]. by left.
  - intros Hlow. rewrite dedupStep_fresh.
    + simpl. split; [done|]. split; [apply Set_add_elem|].
      intros a. apply Set_add_incl.
    + apply findSeen_None. intros a Ha. apply Qle_bool_false.
      unfold ADDRESS_SIMILARITY_THRESHOLD. specialize (Hlow a Ha).
      fold n. lra.
Qed.

(** C9. Every record of the output is one of the input records, the
    output together with the dropped records is a rearrangement of the
    flattened input, so that no input record is used twice, and the output
    is no longer than the input. *)
Theorem deduplicateProperties_selects (sources : list (list Property)) :
  (∀ p, p ∈ deduplicateProperties sources → p ∈ concat sources)
  ∧ (∃ dropped, deduplicateProperties sources ++ dropped ≡ₚ concat sources)
  ∧ (length (deduplicateProperties sources) ≤ length (concat sources))%nat.
Proof.
  destruct (dedupLoop_partition (concat sources)) as [dropped Hd].
  assert (deduplicateProperties sources ++ dropped ≡ₚ concat sources) as Hp.
  { unfold deduplicateProperties. by rewrite Array_sort_perm. }
  split; [|split].
  - intros p Hin. rewrite <- Hp. apply elem_of_app. by left.
  - by exists dropped.
  - rewrite <- Hp, length_app. lia.
Qed.

Lemma dedupLoop_subset allProperties p :
  p ∈ (dedupLoop allProperties).1 → p ∈ allProperties.
Proof.
  destruct (dedupLoop_partition allProperties) as [dropped Hd].
  intros Hin. rewrite <- Hd. apply elem_of_app. by left.
Qed.

Lemma dedupLoop_prioritySet allProperties :
  prioritySet allProperties → prioritySet (dedupLoop allProperties).1.
Proof.
  unfold prioritySet. rewrite !Forall_forall. intros Hall p Hp.
  by apply Hall, dedupLoop_subset.
Qed.


(** C2 (amended). Deduplication is idempotent on every input whose output
    holds no two records with addresses at or above the threshold (and
    whose records carry a boolean [prioridade]): feeding that output back
    as a single batch returns it unchanged. *)
Theorem deduplicateProperties_idempotent_when_dissimilar
  (sources : list (list Property)) :
  prioritySet (concat sources) →
  pairwiseDissimilar
    (map (λ p, normalizeText (endereco p)) (deduplicateProperties sources)) →
  deduplicateProperties [deduplicateProperties sources]
  = deduplicateProperties sources.
Proof.
  intros Hset Hdis.
  unfold deduplicateProperties at 1. simpl concat. rewrite app_nil_r.
  rewrite dedupLoop_dissimilar by (by apply pairwiseDissimilar_toEarlier).
  assert (deduplicateProperties sources
          = JS.sort_by rankLeb (dedupLoop (concat sources)).1) as Hout.
  { apply Array_sort_rankLeb. by apply dedupLoop_prioritySet. }
  rewrite Array_sort_rankLeb.
  - rewrite Hout. apply sort_by_of_sorted.
    apply sort_by_sorted; [apply rankLeb_total|apply rankLeb_trans].
  - rewrite Hout. unfold prioritySet. rewrite sort_by_perm.
    by apply dedupLoop_prioritySet.
Qed.

(** C1 (amended). The addresses of the seen set are pairwise below the
    threshold, each against those added before it, and every output record
    is represented in the seen set, by its own normalized address or by one
    it reaches the threshold against.  The output itself holds no two
    distinct records whose normalized addresses reach the threshold when
    similarity does not chain on the input, or when no input record would
    replace one whose address it reaches the threshold against
    ([compareTwoStrings] being symmetric). *)
Theorem seen_addresses_dissimilar (sources : list (list Property)) :
  let seen := (dedupLoop (concat sources)).2 in
  let output := deduplicateProperties sources in
  dissimilarToEarlier seen
  ∧ (∀ p, p ∈ output →
          normalizeText (endereco p) ∈ seen
          ∨ ∃ a, a ∈ seen ∧ similar (normalizeText (endereco p)) a = true)
  ∧ ((∀ x y, (compareTwoStrings x y == compareTwoStrings y x)%Q) →
     chainFree (concat sources) ∨ noSimilarReplacement (concat sources) →
     pairwiseDissimilar (map (λ p, normalizeText (endereco p)) output)).
Proof.
  intros seen output.
  assert (output ≡ₚ (dedupLoop (concat sources)).1) as Hp
    by apply Array_sort_perm.
  split; [apply dedupLoop_seen_dissimilar|]. split.
  - intros p Hin. apply dedupLoop_represented. by rewrite <- Hp.
  - intros Hsym Hin. apply dissimilarOneWay_symmetric; [done|].
    apply (dissimilarOneWay_perm
             (map (λ p, normalizeText (endereco p))
                  (dedupLoop (concat sources)).1)).
    + symmetry. by apply Permutation_map.
    + destruct Hin as [Hcf|Hnr].
      * by apply pairwiseDissimilar_oneWay, dedupLoop_chain_free.
      * by apply dissimilarToEarlier_oneWay, dedupLoop_no_similar_replacement.
Qed.

End DedupClaims.

(** ** Novelty *)

Lemma spreadWithNovo_frame (p : Property) (flag : bool) :
  sameExceptNovo p (spreadWithNovo p flag).
Proof. unfold sameExceptNovo. by repeat split. Qed.

Lemma markNewProperties_lookup (current previous : list Property) i :
  markNewProperties current previous !! i
  = (λ p, spreadWithNovo p (negb (bool_decide (id p ∈ map id previous))))
      <$> current !! i.
Proof.
  unfold markNewProperties.
  change (map ?f current) with (f <$> current).
  rewrite list_lookup_fmap.
  destruct (current !! i) as [p|]; [|done]. simpl. do 3 f_equal.
  apply bool_decide_ext. apply elem_of_list_to_set.
Qed.

(** C10. The output of [markNewProperties] has the length and the order of
    [current]: the record at each position is the input record of that
    position with every field other than [novo] unchanged. *)
Theorem markNewProperties_frame (current previous : list Property) :
  length (markNewProperties current previous) = length current
  ∧ ∀ i p, current !! i = Some p →
           ∃ q, markNewProperties current previous !! i = Some q
                ∧ sameExceptNovo p q.
Proof.
  split.
  - unfold markNewProperties. apply length_map.
  - intros i p Hi. rewrite markNewProperties_lookup, Hi. simpl.
    eexists. split; [done|]. apply spreadWithNovo_frame.
Qed.

Section StoreFacts.
Implicit Types (st : Store.store).

Lemma mapM_lookup_fresh (l k : list Property) :
  mapM (λ r, (l ++ k) !! r) (seq (length l) (length k)) = Some k.
Proof.
  apply mapM_Some. revert l. induction k as [|y k IH]; intros l; simpl.
  - constructor.
  - constructor.
    + by rewrite lookup_app_r, Nat.sub_diag.
    + specialize (IH (l ++ [y])).
      rewrite length_app, <- app_assoc in IH. simpl in IH.
      by rewrite Nat.add_1_r in IH.
Qed.

Lemma mapM_lookup_app (l k : list Property) (refs : list nat) cur :
  mapM (λ r, l !! r) refs = Some cur →
  mapM (λ r, (l ++ k) !! r) refs = Some cur.
Proof.
  rewrite !mapM_Some. intros Hm. eapply Forall2_impl; [exact Hm|].
  intros r p Hr. by apply lookup_app_l_Some.
Qed.

Lemma readArray_alloc st fresh refs array cur :
  Store.readArray st array = Some cur →
  Store.readArray {| Store.objects := Store.objects st ++ fresh;
       Store.arrays := Store.arrays st ++ [refs] |}
            array = Some cur.
Proof.
  unfold Store.readArray. simpl.
  destruct (Store.arrays st !! array) as [rs|] eqn:Ha; [|done]. simpl.
  intros Hm. rewrite (lookup_app_l_Some _ _ _ _ Ha). simpl.
  by apply mapM_lookup_app.
Qed.

(** The store version allocates the records the list version computes and
    writes to no cell that existed before the call. *)
Lemma store_markNewProperties st (current previous : nat) cur prev :
  Store.readArray st current = Some cur →
  Store.readArray st previous = Some prev →
  ∃ st' result,
    Store.markNewProperties st current previous = Some (st', result)
    ∧ Store.readArray st' result = Some (markNewProperties cur prev)
    ∧ Store.readArray st' current = Some cur
    ∧ Store.readArray st' previous = Some prev
    ∧ (∀ o, (o < length (Store.objects st))%nat →
          Store.objects st' !! o = Store.objects st !! o)
    ∧ (∀ a, (a < length (Store.arrays st))%nat →
          Store.arrays st' !! a = Store.arrays st !! a).
Proof.
  intros Hc Hp. unfold Store.markNewProperties. rewrite Hp, Hc. simpl.
  eexists _, _. split; [done|].
  split; [|split; [exact (readArray_alloc st _ _ _ _ Hc)|
                   split; [exact (readArray_alloc st _ _ _ _ Hp)|]]].
  - unfold Store.readArray. simpl.
    rewrite lookup_app_r, Nat.sub_diag by done. simpl.
    apply mapM_lookup_fresh.
  - simpl. split; intros ? ?; by rewrite lookup_app_l.
Qed.

End StoreFacts.

(** C7. Each output record of [markNewProperties] has [novo] set, to true
    exactly when its [id] is not among the ids of [previous].  With an
    empty [previous] every record is marked new, and with [previous] equal
    to [current] none is.  On the store, the call returns a fresh array of
    fresh records and leaves both input arrays and all their records as
    they were. *)
Theorem markNewProperties_flags (current previous : list Property) :
  (∀ q, q ∈ markNewProperties current previous →
        (novo q = Some true ↔ id q ∉ map id previous)
        ∧ (novo q = Some false ↔ id q ∈ map id previous))
  ∧ (∀ q, q ∈ markNewProperties current [] → novo q = Some true)
  ∧ (∀ q, q ∈ markNewProperties current current → novo q = Some false)
  ∧ (∀ st currentRef previousRef,
       Store.readArray st currentRef = Some current →
       Store.readArray st previousRef = Some previous →
       ∃ st' result,
         Store.markNewProperties st currentRef previousRef = Some (st', result)
         ∧ Store.readArray st' result = Some (markNewProperties current previous)
         ∧ Store.readArray st' currentRef = Some current
         ∧ Store.readArray st' previousRef = Some previous
         ∧ (∀ o, (o < length (Store.objects st))%nat →
                 Store.objects st' !! o = Store.objects st !! o)
         ∧ (∀ a, (a < length (Store.arrays st))%nat →
                 Store.arrays st' !! a = Store.arrays st !! a)).
Proof.
  assert (∀ prev q, q ∈ markNewProperties current prev →
            ∃ p, p ∈ current ∧ id q = id p
                 ∧ novo q = Some (negb (bool_decide (id p ∈ map id prev))))
    as Hflag.
  { intros prev q (i & Hi)%list_elem_of_lookup_1.
    rewrite markNewProperties_lookup in Hi.
    destruct (current !! i) as [p|] eqn:Hp; [|done].
    injection Hi as <-. exists p.
    split; [by eapply list_elem_of_lookup_2|done]. }
  split; [|split; [|split]].
  - intros q (p & _ & Hid & Hn)%Hflag. rewrite Hid, Hn.
    case_bool_decide; simpl; split; split; intros; done.
  - intros q (p & _ & _ & Hn)%Hflag. rewrite Hn. simpl.
    case_bool_decide as Hin; [|done]. by apply elem_of_nil in Hin.
  - intros q (p & Hp & _ & Hn)%Hflag. rewrite Hn.
    case_bool_decide as Hin; [done|]. exfalso. apply Hin.
    change (map id current) with (id <$> current).
    by apply list_elem_of_fmap_2.
  - intros st currentRef previousRef. apply store_markNewProperties.
Qed.

(** ** Symmetry of the similarity on ASCII text *)

Lemma AsciiText_bigrams_step a b s :
  AsciiText.bigrams (String a (String b s))
  = String a (String b EmptyString) :: AsciiText.bigrams (String b s).
Proof. reflexivity. Qed.

Lemma AsciiText_countBigrams_step a b s m :
  AsciiText.countBigrams (String a (String b s)) m
  = AsciiText.countBigrams (String b s)
      (<[String a (String b EmptyString) :=
           S (default 0%nat (m !! String a (String b EmptyString)))]> m).
Proof.
  cbn [AsciiText.countBigrams].
  destruct (m !! String a (String b EmptyString)); simpl; [|done].
  by rewrite Nat.add_1_r.
Qed.

Lemma AsciiText_intersectBigrams_step a b s m n :
  AsciiText.intersectBigrams (String a (String b s)) m n
  = match default 0%nat (m !! String a (String b EmptyString)) with
    | S c => AsciiText.intersectBigrams (String b s)
               (<[String a (String b EmptyString) := c]> m) (S n)
    | O => AsciiText.intersectBigrams (String b s) m n
    end.
Proof.
  cbn [AsciiText.intersectBigrams].
  destruct (m !! String a (String b EmptyString)) as [[|c]|]; simpl; try done.
  by rewrite Nat.sub_0_r.
Qed.

Lemma countBigrams_counts s m M :
  AsciiText.counts m M →
  AsciiText.counts (AsciiText.countBigrams s m)
                   (M ⊎ list_to_set_disj (AsciiText.bigrams s)).
Proof.
  revert m M. induction s as [|a s IH]; intros m M Hm.
  - simpl. by rewrite (right_id_L ∅ (⊎)).
  - destruct s as [|b s].
    + simpl. by rewrite (right_id_L ∅ (⊎)).
    + rewrite AsciiText_countBigrams_step, AsciiText_bigrams_step.
      set (g := String a (String b EmptyString)).
      intros x. rewrite (IH _ (M ⊎ {[+ g +]})).
      * cbn [list_to_set_disj foldr]. rewrite !multiplicity_disj_union. lia.
      * intros y. specialize (Hm y).
        rewrite multiplicity_disj_union.
        destruct (decide (g = y)) as [<-|Hne].
        -- rewrite lookup_insert_eq, multiplicity_singleton, <- Hm.
           rewrite decide_True by done. simpl. lia.
        -- rewrite lookup_insert_ne, multiplicity_singleton_ne, <- Hm by done. lia.
Qed.

Lemma intersectBigrams_size s m M n :
  AsciiText.counts m M →
  AsciiText.intersectBigrams s m n
  = (n + size (list_to_set_disj (AsciiText.bigrams s) ∩ M))%nat.
Proof.
  revert m M n. induction s as [|a s IH]; intros m M n Hm.
  - simpl. replace (∅ ∩ M) with (∅ : gmultiset string) by multiset_solver.
    rewrite gmultiset_size_empty. lia.
  - destruct s as [|b s].
    + simpl. replace (∅ ∩ M) with (∅ : gmultiset string) by multiset_solver.
      rewrite gmultiset_size_empty. lia.
    + rewrite AsciiText_intersectBigrams_step, AsciiText_bigrams_step.
      set (g := String a (String b EmptyString)).
      pose proof (Hm g) as Hg.
      cbn [list_to_set_disj foldr].
      destruct (default 0%nat (m !! g)) as [|c] eqn:Hc.
      * rewrite (IH _ M) by done. do 2 f_equal.
        apply gmultiset_eq. intros y.
        rewrite !multiplicity_intersection, multiplicity_disj_union.
        destruct (decide (y = g)) as [->|Hne].
        -- rewrite multiplicity_singleton_eq. lia.
        -- rewrite multiplicity_singleton_ne by done. lia.
      * rewrite (IH _ (M ∖ {[+ g +]})).
        -- replace (({[+ g +]} ⊎ list_to_set_disj (AsciiText.bigrams (String b s))) ∩ M)
             with ({[+ g +]}
                   ⊎ (list_to_set_disj (AsciiText.bigrams (String b s)) ∩ (M ∖ {[+ g +]})))
             by (apply gmultiset_eq; intros y;
                 rewrite !multiplicity_disj_union, !multiplicity_intersection,
                   multiplicity_disj_union, multiplicity_difference;
                 destruct (decide (y = g)) as [->|Hne];
                 [rewrite multiplicity_singleton_eq
                 |rewrite multiplicity_singleton_ne by done]; lia).
           rewrite gmultiset_size_disj_union, gmultiset_size_singleton. lia.
        -- intros y. specialize (Hm y).
           rewrite multiplicity_difference.
           destruct (decide (g = y)) as [<-|Hne].
           ++ rewrite lookup_insert_eq, multiplicity_singleton, <- Hg.
              rewrite decide_True by done. simpl. lia.
           ++ rewrite lookup_insert_ne, multiplicity_singleton_ne, <- Hm by done. lia.
Qed.

(** Dice's coefficient does not depend on the order of its arguments. *)
Lemma AsciiText_compareTwoStrings_sym (x y : string) :
  AsciiText.compareTwoStrings x y = AsciiText.compareTwoStrings y x.
Proof.
  unfold AsciiText.compareTwoStrings.
  set (f := AsciiText.removeWhiteSpace x).
  set (s := AsciiText.removeWhiteSpace y).
  rewrite (String.eqb_sym s f).
  destruct (String.eqb f s); [done|].
  rewrite (orb_comm (String.length s <? 2)%nat).
  destruct ((String.length f <? 2)%nat || (String.length s <? 2)%nat); [done|].
  assert (AsciiText.counts ∅ ∅) as Hempty.
  { intros b. rewrite lookup_empty. simpl. by rewrite multiplicity_empty. }
  rewrite (intersectBigrams_size s _ _ 0 (countBigrams_counts f _ _ Hempty)).
  rewrite (intersectBigrams_size f _ _ 0 (countBigrams_counts s _ _ Hempty)).
  rewrite !(left_id_L ∅ (⊎)), (comm_L (∩)), (Nat.add_comm (String.length s)).
  done.
Qed.

(** ** The properties on the sample records *)

Section OnAsciiText.
Import Examples.
Local Existing Instance AsciiText.externals.

(** C1, counterexample.  [chainSecond] replaces [chainFirst], whose address
    stays in the seen set; [chainThird] is below the threshold against
    that address (42/51) and is emitted, although it reaches the threshold
    against the address of [chainSecond] (48/56): the output holds two
    records with similar addresses. *)
Lemma drifted_output_has_similar_pair :
  deduplicateProperties [[chainFirst]; [chainSecond]; [chainThird]]
  = [chainSecond; chainThird]
  ∧ (0.85 <= compareTwoStrings (normalizedAddress chainSecond)
                               (normalizedAddress chainThird))%Q
  ∧ ¬ pairwiseDissimilar
        (map normalizedAddress
             (deduplicateProperties [[chainFirst]; [chainSecond]; [chainThird]])).
Proof.
  split; [by vm_compute|]. split; [by vm_compute|].
  intros Hp.
  assert (similar (normalizedAddress chainSecond) (normalizedAddress chainThird)
          = false) as Hsim.
  { apply (Hp 0%nat 1%nat); [lia|vm_compute; reflexivity..]. }
  vm_compute in Hsim. discriminate Hsim.
Qed.

Lemma seen_addresses_dissimilar_witness :
  (∀ x y, (compareTwoStrings x y == compareTwoStrings y x)%Q)
  ∧ chainFree (concat [[chainFirst]; [chainSecond]; [recordC]])
  ∧ deduplicateProperties [[chainFirst]; [chainSecond]; [recordC]]
    = [chainSecond; recordC]
  ∧ pairwiseDissimilar
      (map normalizedAddress
           (deduplicateProperties [[chainFirst]; [chainSecond]; [recordC]])).
Proof.
  assert (∀ x y, (compareTwoStrings x y == compareTwoStrings y x)%Q) as Hsym.
  { intros x y. simpl. by rewrite AsciiText_compareTwoStrings_sym. }
  assert (chainFree (concat [[chainFirst]; [chainSecond]; [recordC]])) as Hcf.
  { intros a b c Ha Hb Hc. simpl in Ha, Hb, Hc.
    rewrite !elem_of_cons in Ha, Hb, Hc.
    destruct Ha as [->|[->|[->|Ha]]];
      [| | |destruct (proj1 (elem_of_nil _) Ha)];
      (destruct Hb as [->|[->|[->|Hb]]];
       [| | |destruct (proj1 (elem_of_nil _) Hb)]);
      (destruct Hc as [->|[->|[->|Hc]]];
       [| | |destruct (proj1 (elem_of_nil _) Hc)]);
      vm_compute; intros; first [reflexivity|discriminate]. }
  split; [exact Hsym|]. split; [exact Hcf|]. split; [by vm_compute|].
  exact (proj2 (proj2 (seen_addresses_dissimilar
                         [[chainFirst]; [chainSecond]; [recordC]]))
               Hsym (or_introl Hcf)).
Defined.

(** C2, counterexample.  The output of the chain holds two records with
    similar addresses; fed back as one batch, they collapse into one. *)
Lemma dedup_not_idempotent_after_drift :
  deduplicateProperties [[chainFirst]; [chainSecond]; [chainThird]]
  = [chainSecond; chainThird]
  ∧ deduplicateProperties
      [deduplicateProperties [[chainFirst]; [chainSecond]; [chainThird]]]
    = [chainSecond]
  ∧ deduplicateProperties
      [deduplicateProperties [[chainFirst]; [chainSecond]; [chainThird]]]
    ≠ deduplicateProperties [[chainFirst]; [chainSecond]; [chainThird]].
Proof.
  split; [by vm_compute|]. split; [by vm_compute|].
  intros Heq. apply (f_equal length) in Heq. vm_compute in Heq. discriminate.
Qed.

Lemma deduplicateProperties_idempotent_when_dissimilar_witness :
  prioritySet (concat [[recordA]; [belowThreshold]])
  ∧ pairwiseDissimilar
      (map normalizedAddress
           (deduplicateProperties [[recordA]; [belowThreshold]]))
  ∧ deduplicateProperties [deduplicateProperties [[recordA]; [belowThreshold]]]
    = deduplicateProperties [[recordA]; [belowThreshold]].
Proof.
  assert (prioritySet (concat [[recordA]; [belowThreshold]])) as Hset
    by (repeat constructor; done).
  assert (pairwiseDissimilar
            (map normalizedAddress
                 (deduplicateProperties [[recordA]; [belowThreshold]]))) as Hdis.
  { intros i j x y Hij Hi Hj.
    vm_compute in Hi, Hj.
    destruct i as [|[|i]], j as [|[|j]];
      first [lia | discriminate Hi | discriminate Hj | idtac];
      injection Hi as <-; injection Hj as <-; vm_compute; reflexivity. }
  split; [exact Hset|]. split; [exact Hdis|].
  exact (deduplicateProperties_idempotent_when_dissimilar
           [[recordA]; [belowThreshold]] Hset Hdis).
Defined.

(** C3, counterexample.  [onlyDiscount] and [onlyAppraisal] have the same
    score and exactly one of them, the emitted one, has the discount; the
    new record supplies the appraised value the emitted one lacks and
    replaces it, so the survivor is the record without the discount. *)
Lemma tie_break_discards_discount :
  scoreProperty onlyDiscount = scoreProperty onlyAppraisal
  ∧ descontoPresent onlyDiscount = true
  ∧ descontoPresent onlyAppraisal = false
  ∧ deduplicateProperties [[onlyDiscount]; [onlyAppraisal]] = [onlyAppraisal].
Proof. repeat split; by vm_compute. Qed.

Lemma duplicate_replaced_by_rule_witness :
  findSeen (normalizedAddress chainSecond) [normalizedAddress chainFirst]
  = Some (0%nat, normalizedAddress chainFirst)
  ∧ findIndex (normalizedAddress chainFirst) [chainFirst]
    = Some (0%nat, chainFirst)
  ∧ replaceRule chainFirst chainSecond
  ∧ dedupStep ([chainFirst], [normalizedAddress chainFirst]) chainSecond
    = ([chainSecond], [normalizedAddress chainFirst]).
Proof.
  assert (findSeen (normalizedAddress chainSecond) [normalizedAddress chainFirst]
          = Some (0%nat, normalizedAddress chainFirst)) as Hseen
    by (by vm_compute).
  assert (findIndex (normalizedAddress chainFirst) [chainFirst]
          = Some (0%nat, chainFirst)) as Hfound by (by vm_compute).
  assert (replaceRule chainFirst chainSecond) as Hrule
    by (left; by vm_compute).
  split; [exact Hseen|]. split; [exact Hfound|]. split; [exact Hrule|].
  exact (proj1 (duplicate_replaced_by_rule _ _ _ _ _ _ _ Hseen Hfound) Hrule).
Defined.

(** C4, counterexample.  A record sold at its appraised value has a
    discount, 0, and earns nothing for it: it scores 3, for the appraised
    value alone, as the same record without a discount does. *)
Lemma zero_discount_scores_nothing :
  avaliacao atAppraisal = Some 300000%Q
  ∧ desconto atAppraisal = Some 0%Q
  ∧ desconto noDiscount = None
  ∧ scoreProperty atAppraisal = 3
  ∧ scoreProperty noDiscount = 3.
Proof. repeat split; by vm_compute. Qed.

Lemma scoreProperty_weighted_sum_witness :
  (∀ c, meets chainFirst c → meets chainSecond c)
  ∧ (∃ c, meets chainSecond c ∧ ¬ meets chainFirst c)
  ∧ scoreProperty chainFirst < scoreProperty chainSecond.
Proof.
  assert (∀ c, meets chainFirst c → meets chainSecond c) as Hle.
  { intros c. apply (bool_decide_unpack _). by destruct c; vm_compute. }
  assert (∃ c, meets chainSecond c ∧ ¬ meets chainFirst c) as Hmore.
  { exists Area. apply (bool_decide_unpack _). by vm_compute. }
  split; [exact Hle|]. split; [exact Hmore|].
  exact (proj2 (proj2 (proj2 (scoreProperty_weighted_sum chainFirst))
                      chainSecond Hle)
               Hmore).
Defined.



Lemma threshold_is_inclusive_witness :
  (∃ a, a ∈ (dedupLoop [recordA]).2
        ∧ (compareTwoStrings (normalizedAddress atThreshold) a == 0.85)%Q)
  ∧ (dedupLoop ([recordA] ++ [atThreshold])).2 = (dedupLoop [recordA]).2
  ∧ length (dedupLoop ([recordA] ++ [atThreshold])).1 = 1%nat
  ∧ (∀ a, a ∈ (dedupLoop [recordA]).2 →
          (compareTwoStrings (normalizedAddress belowThreshold) a < 0.85)%Q)
  ∧ (dedupLoop ([recordA] ++ [belowThreshold])).1 = [recordA; belowThreshold]
  ∧ normalizedAddress belowThreshold
    ∈ (dedupLoop ([recordA] ++ [belowThreshold])).2.
Proof.
  assert (∃ a, a ∈ (dedupLoop [recordA]).2
               ∧ (compareTwoStrings (normalizedAddress atThreshold) a
                  == 0.85)%Q) as Hat.
  { exists (normalizedAddress recordA). split; [by left|by vm_compute]. }
  assert (∀ a, a ∈ (dedupLoop [recordA]).2 →
               (compareTwoStrings (normalizedAddress belowThreshold) a
                < 0.85)%Q) as Hlow.
  { intros a Ha. vm_compute in Ha. apply list_elem_of_singleton in Ha as ->.
    by vm_compute. }
  destruct (proj1 (threshold_is_inclusive [recordA] atThreshold) Hat)
    as (Hseen & Hlen & _).
  destruct (proj2 (threshold_is_inclusive [recordA] belowThreshold) Hlow)
    as (Hout & Hin & _).
  split; [exact Hat|]. split; [exact Hseen|]. split; [exact Hlen|].
  split; [exact Hlow|]. split; [exact Hout|]. exact Hin.
Defined.

Lemma deduplicateProperties_selects_witness :
  recordA ∈ deduplicateProperties [[recordA]; [atThreshold]]
  ∧ recordA ∈ concat [[recordA]; [atThreshold]].
Proof.
  assert (recordA ∈ deduplicateProperties [[recordA]; [atThreshold]]) as Hin
    by (vm_compute; by left).
  split; [exact Hin|].
  exact (proj1 (deduplicateProperties_selects [[recordA]; [atThreshold]])
               _ Hin).
Defined.

End OnAsciiText.

Lemma markNewProperties_frame_witness :
  [Examples.recordA; Examples.recordC] !! 1%nat = Some Examples.recordC
  ∧ ∃ q, markNewProperties [Examples.recordA; Examples.recordC]
                           [Examples.recordA] !! 1%nat = Some q
         ∧ sameExceptNovo Examples.recordC q.
Proof.
  split; [reflexivity|].
  exact (proj2 (markNewProperties_frame [Examples.recordA; Examples.recordC]
                                        [Examples.recordA])
               1%nat Examples.recordC eq_refl).
Defined.

Lemma markNewProperties_flags_witness :
  Store.readArray Examples.sampleStore 0%nat
  = Some [Examples.recordA; Examples.recordC]
  ∧ Store.readArray Examples.sampleStore 1%nat = Some [Examples.recordA]
  ∧ ∃ st' result,
      Store.markNewProperties Examples.sampleStore 0%nat 1%nat
      = Some (st', result)
      ∧ Store.readArray st' result
        = Some (markNewProperties [Examples.recordA; Examples.recordC]
                                  [Examples.recordA])
      ∧ Store.readArray st' 0%nat = Some [Examples.recordA; Examples.recordC]
      ∧ Store.readArray st' 1%nat = Some [Examples.recordA]
      ∧ (∀ o, (o < length (Store.objects Examples.sampleStore))%nat →
              Store.objects st' !! o = Store.objects Examples.sampleStore !! o)
      ∧ (∀ a, (a < length (Store.arrays Examples.sampleStore))%nat →
              Store.arrays st' !! a = Store.arrays Examples.sampleStore !! a).
Proof.
  split; [reflexivity|]. split; [reflexivity|].
  exact (proj2 (proj2 (proj2 (markNewProperties_flags
                                [Examples.recordA; Examples.recordC]
                                [Examples.recordA])))
               Examples.sampleStore 0%nat 1%nat eq_refl eq_refl).
Defined.

Lemma meetsFilters_exactly_witness :
  withinFilters Examples.recordA ∧ meetsFilters Examples.recordA = true.
Proof.
  assert (withinFilters Examples.recordA) as Hw.
  { exists 40%Q. split; [reflexivity|]. split; by vm_compute. }
  split; [exact Hw|].
  exact (proj2 (proj1 meetsFilters_exactly Examples.recordA) Hw).
Defined.

(** * Further properties *)

(** ** Substrings *)

Lemma startsWith_app (p rest : string) :
  JSText.startsWith (p ++ rest) p = true.
Proof.
  induction p as [|c p IH]; simpl; [done|].
  by rewrite Ascii.eqb_refl, IH.
Qed.

Lemma startsWith_refl (s : string) : JSText.startsWith s s = true.
Proof.
  induction s as [|c s IH]; simpl; [done|].
  by rewrite Ascii.eqb_refl, IH.
Qed.

Lemma includes_refl (s : string) : JSText.includes s s = true.
Proof. destruct s; simpl; [done|]. by rewrite Ascii.eqb_refl, startsWith_refl. Qed.

Lemma includes_empty (s : string) : JSText.includes s EmptyString = true.
Proof. by destruct s. Qed.

Lemma includes_head (s p : string) :
  JSText.startsWith s p = true → JSText.includes s p = true.
Proof. intros Hp. destruct s; simpl in *; by rewrite Hp. Qed.

Lemma includes_app (pre p post : string) :
  JSText.includes (pre ++ p ++ post) p = true.
Proof.
  induction pre as [|c pre IH].
  - change (JSText.includes (p ++ post) p = true).
    apply includes_head, startsWith_app.
  - change (JSText.includes (String c (pre ++ p ++ post)) p = true).
    cbn [JSText.includes]. rewrite IH. apply orb_true_r.
Qed.

(** ** Priority neighbourhoods *)

(** X1. Every configured priority neighbourhood is recognised by
    [isPriorityNeighborhood], whatever [toLowerCase] does to its name. *)
Theorem isPriorityNeighborhood_configured `{Externals} (n : string) :
  n ∈ PRIORITY_NEIGHBORHOODS → isPriorityNeighborhood n = true.
Proof.
  intros Hn. unfold isPriorityNeighborhood. apply existsb_exists.
  exists n. split; [by apply list_elem_of_In|].
  by rewrite includes_refl.
Qed.

(** X2. A neighbourhood whose lower-case form is empty, such as the empty
    name, is reported as a priority neighbourhood: every configured name
    includes the empty string. *)
Theorem isPriorityNeighborhood_empty `{Externals} (bairro : string) :
  String_toLowerCase bairro = EmptyString →
  isPriorityNeighborhood bairro = true.
Proof.
  intros He. unfold isPriorityNeighborhood. rewrite He. simpl.
  by rewrite includes_empty, orb_true_r.
Qed.

(** X3. Every priority neighbourhood of the stand-alone scraper is
    recognised by its [isPriority], whatever [normalize] does to its
    name. *)
Theorem isPriority_configured `{Externals} (b : string) :
  b ∈ Scrape.PRIORITY_BAIRROS → Scrape.isPriority b = true.
Proof.
  intros Hb. unfold Scrape.isPriority. apply existsb_exists.
  exists (Scrape.normalize b). split.
  - unfold Scrape.PRIORITY_BAIRROS_NORMALIZED. apply in_map.
    by apply list_elem_of_In.
  - by rewrite includes_refl.
Qed.

(** ** Dates *)

Lemma append_cons (x : ascii) (a b : string) :
  (String x a ++ b)%string = String x (a ++ b).
Proof. reflexivity. Qed.

Lemma append_assoc (a b c : string) : ((a ++ b) ++ c = a ++ b ++ c)%string.
Proof.
  induction a as [|x a IH]; [done|]. by rewrite !append_cons, IH.
Qed.

Lemma append_empty_inv (a b : string) :
  (a ++ b)%string = EmptyString → a = EmptyString ∧ b = EmptyString.
Proof. destruct a; [done|]. rewrite append_cons. discriminate. Qed.

Lemma length_append (a b : string) :
  String.length (a ++ b) = (String.length a + String.length b)%nat.
Proof.
  induction a as [|x a IH]; [done|]. rewrite append_cons. simpl. by rewrite IH.
Qed.

Lemma allDigits_append (a b : string) :
  JSText.allDigits (a ++ b) = JSText.allDigits a && JSText.allDigits b.
Proof.
  induction a as [|x a IH]; [done|]. rewrite append_cons. simpl.
  by rewrite IH, andb_assoc.
Qed.

Lemma isDigit_not_slash (c : ascii) :
  JSText.isDigit c = true → Ascii.eqb c "/" = false.
Proof.
  intros Hc. destruct (Ascii.eqb_spec c "/") as [->|]; [|done].
  vm_compute in Hc. discriminate.
Qed.

Lemma isDigit_one_unit (c : ascii) :
  JSText.isDigit c = true → JS.units_of_byte c = 1%nat.
Proof.
  unfold JSText.isDigit, JS.units_of_byte.
  intros [_ Hc%Nat.leb_le]%andb_true_iff.
  destruct (Nat.ltb_spec (nat_of_ascii c) 128); [done|lia].
Qed.

Lemma allDigits_length (s : string) :
  JSText.allDigits s = true → JS.length s = String.length s.
Proof.
  induction s as [|c s IH]; simpl; [done|].
  intros [Hc Hs]%andb_true_iff. by rewrite isDigit_one_unit, IH.
Qed.

Lemma padStart_digits12 (x : string) :
  digits12 x → JSText.padStart 2 "0" x = zeroPadded x ∧ digitsN 2 (zeroPadded x).
Proof.
  intros [Hl Hd]. unfold JSText.padStart, zeroPadded, digitsN.
  rewrite (allDigits_length _ Hd).
  destruct Hl as [Hl|Hl]; rewrite Hl; simpl; [|done].
  split; [done|]. by rewrite Hl, Hd.
Qed.

(** *** The leftmost match *)

Section Search.
Context {A : Type} (matchAt : string → option A).

Lemma search_head (s : string) r :
  matchAt s = Some r → JSText.search matchAt s = Some r.
Proof. intros Hm. destruct s; simpl; by rewrite Hm. Qed.

Lemma search_None (s : string) :
  JSText.search matchAt s = None
  ↔ ∀ pre post, s = (pre ++ post)%string → matchAt post = None.
Proof.
  induction s as [|c s IH].
  - simpl. split.
    + intros Hm pre post Hs. symmetry in Hs.
      apply append_empty_inv in Hs as [_ ->]. by destruct (matchAt EmptyString).
    + intros Hm. by rewrite (Hm EmptyString EmptyString).
  - cbn [JSText.search]. split.
    + intros Hm pre post Hs.
      destruct (matchAt (String c s)) eqn:Hc; [done|].
      destruct pre as [|c' pre].
      * change (String c s = post) in Hs. by subst.
      * rewrite append_cons in Hs. injection Hs as _ Hs.
        by apply (proj1 IH Hm pre).
    + intros Hm. rewrite (Hm EmptyString (String c s)) by done.
      apply IH. intros pre post ->. by apply (Hm (String c pre)).
Qed.

Lemma search_Some (s : string) r :
  JSText.search matchAt s = Some r →
  ∃ pre post, s = (pre ++ post)%string ∧ matchAt post = Some r.
Proof.
  induction s as [|c s IH]; cbn [JSText.search].
  - destruct (matchAt EmptyString) eqn:Hm; [|done].
    intros [= ->]. by exists EmptyString, EmptyString.
  - destruct (matchAt (String c s)) eqn:Hm.
    + intros [= ->]. by exists EmptyString, (String c s).
    + intros (pre & post & -> & Hp)%IH. by exists (String c pre), post.
Qed.

End Search.

(** *** The digit groups *)

Lemma digits12Slash_Some (s d rest : string) :
  JSText.digits12Slash s = Some (d, rest)
  ↔ digits12 d ∧ s = (d ++ "/" ++ rest)%string.
Proof.
  unfold JSText.digits12Slash, digits12. split.
  - destruct s as [|a [|b s]]; try done.
    destruct (JSText.isDigit a) eqn:Ha; [|done].
    destruct (Ascii.eqb_spec b "/") as [->|Hb].
    + intros [= <- <-]. simpl. rewrite Ha. auto.
    + destruct (JSText.isDigit b) eqn:Hd; [|done].
      destruct s as [|c s]; [done|].
      destruct (Ascii.eqb_spec c "/") as [->|Hc]; [|done].
      intros [= <- <-]. simpl. rewrite Ha, Hd. auto.
  - intros [[Hl Hd] ->].
    destruct d as [|a [|b [|c d]]]; simpl in Hl, Hd;
      [destruct Hl; discriminate| | |destruct Hl; discriminate].
    + rewrite andb_true_r in Hd. simpl. by rewrite Hd.
    + apply andb_true_iff in Hd as [Ha Hb]. rewrite andb_true_r in Hb.
      simpl. by rewrite Ha, Hb, (isDigit_not_slash _ Hb).
Qed.

Lemma digits2Slash_Some (s d rest : string) :
  JSText.digits2Slash s = Some (d, rest)
  ↔ digitsN 2 d ∧ s = (d ++ "/" ++ rest)%string.
Proof.
  unfold JSText.digits2Slash, digitsN. split.
  - destruct s as [|a [|b [|c s]]]; try done.
    destruct (JSText.isDigit a) eqn:Ha; [|done].
    destruct (JSText.isDigit b) eqn:Hb; [|done].
    destruct (Ascii.eqb_spec c "/") as [->|Hc]; [|done].
    intros [= <- <-]. simpl. by rewrite Ha, Hb.
  - intros [[Hl Hd] ->].
    destruct d as [|a [|b [|c d]]]; try discriminate Hl.
    simpl in Hd. apply andb_true_iff in Hd as [Ha Hb].
    rewrite andb_true_r in Hb. simpl. by rewrite Ha, Hb.
Qed.

Lemma digits4_Some (s y : string) :
  JSText.digits4 s = Some y
  ↔ digitsN 4 y ∧ ∃ rest, s = (y ++ rest)%string.
Proof.
  unfold JSText.digits4, digitsN. split.
  - destruct s as [|a [|b [|c [|d s]]]]; try done.
    destruct (JSText.isDigit a) eqn:Ha; [|done].
    destruct (JSText.isDigit b) eqn:Hb; [|done].
    destruct (JSText.isDigit c) eqn:Hc; [|done].
    destruct (JSText.isDigit d) eqn:Hd; [|done].
    intros [= <-]. simpl. rewrite Ha, Hb, Hc, Hd.
    split; [done|]. by exists s.
  - intros [[Hl Hd] [rest ->]].
    destruct y as [|a [|b [|c [|d [|e y]]]]]; try discriminate Hl.
    simpl in Hd.
    apply andb_true_iff in Hd as [Ha Hd]. apply andb_true_iff in Hd as [Hb Hd].
    apply andb_true_iff in Hd as [Hc Hd]. rewrite andb_true_r in Hd.
    simpl. by rewrite Ha, Hb, Hc, Hd.
Qed.

Lemma digitsN2_digits12 (d : string) : digitsN 2 d → digits12 d.
Proof. intros [Hl Hd]. split; [by right|done]. Qed.

Lemma matchBRDate_Some (s day month year : string) :
  matchBRDate s = Some (day, month, year)
  ↔ digits12 day ∧ digits12 month ∧ digitsN 4 year
    ∧ ∃ rest, s = (day ++ "/" ++ month ++ "/" ++ year ++ rest)%string.
Proof.
  unfold matchBRDate. split.
  - destruct (JSText.digits12Slash s) as [[d r1]|] eqn:H1; [|done].
    destruct (JSText.digits12Slash r1) as [[m r2]|] eqn:H2; [|done].
    destruct (JSText.digits4 r2) as [y|] eqn:H3; [|done].
    intros [= <- <- <-].
    apply digits12Slash_Some in H1 as [Hd ->], H2 as [Hm ->].
    apply digits4_Some in H3 as [Hy [rest ->]].
    split; [done|]. split; [done|]. split; [done|]. by exists rest.
  - intros (Hd & Hm & Hy & rest & ->).
    rewrite (proj2 (digits12Slash_Some _ day _) (conj Hd eq_refl)).
    rewrite (proj2 (digits12Slash_Some _ month _) (conj Hm eq_refl)).
    rewrite (proj2 (digits4_Some _ year)); [done|].
    split; [done|]. by exists rest.
Qed.

Lemma matchDate_Some (s day month year : string) :
  Scrape.matchDate s = Some (day, month, year)
  ↔ digitsN 2 day ∧ digitsN 2 month ∧ digitsN 4 year
    ∧ ∃ rest, s = (day ++ "/" ++ month ++ "/" ++ year ++ rest)%string.
Proof.
  unfold Scrape.matchDate. split.
  - destruct (JSText.digits2Slash s) as [[d r1]|] eqn:H1; [|done].
    destruct (JSText.digits2Slash r1) as [[m r2]|] eqn:H2; [|done].
    destruct (JSText.digits4 r2) as [y|] eqn:H3; [|done].
    intros [= <- <- <-].
    apply digits2Slash_Some in H1 as [Hd ->], H2 as [Hm ->].
    apply digits4_Some in H3 as [Hy [rest ->]].
    split; [done|]. split; [done|]. split; [done|]. by exists rest.
  - intros (Hd & Hm & Hy & rest & ->).
    rewrite (proj2 (digits2Slash_Some _ day _) (conj Hd eq_refl)).
    rewrite (proj2 (digits2Slash_Some _ month _) (conj Hm eq_refl)).
    rewrite (proj2 (digits4_Some _ year)); [done|].
    split; [done|]. by exists rest.
Qed.

(** *** [parseBRDate] and [parseDate] *)

(** X4. A text that begins with a day and a month of one or two digits and
    a year of four digits, separated by slashes, parses to the ISO date
    with day and month padded to two digits, whatever follows the year. *)
Theorem parseBRDate_leading (day month year rest : string) :
  digits12 day → digits12 month → digitsN 4 year →
  parseBRDate (day ++ "/" ++ month ++ "/" ++ year ++ rest)
  = Some (year ++ "-" ++ zeroPadded month ++ "-" ++ zeroPadded day)%string.
Proof.
  intros Hd Hm Hy. unfold parseBRDate.
  rewrite (search_head matchBRDate _ (day, month, year)).
  - by rewrite (proj1 (padStart_digits12 _ Hd)), (proj1 (padStart_digits12 _ Hm)).
  - apply matchBRDate_Some. repeat (split; [done|]). by exists rest.
Qed.

(** X5. What [parseBRDate] returns is always of the form YYYY-MM-DD, ten
    characters of digits and hyphens; it returns null exactly when no
    digit group D/M/YYYY occurs anywhere in the text. *)
Theorem parseBRDate_result (dateStr : string) :
  (∀ r, parseBRDate dateStr = Some r → isoShaped r)
  ∧ (parseBRDate dateStr = None
     ↔ ¬ ∃ pre day month year post,
           digits12 day ∧ digits12 month ∧ digitsN 4 year
           ∧ dateStr
             = (pre ++ day ++ "/" ++ month ++ "/" ++ year ++ post)%string).
Proof.
  unfold parseBRDate. split.
  - intros r.
    destruct (JSText.search matchBRDate dateStr) as [[[d m] y]|] eqn:Hs; [|done].
    intros [= <-]. apply search_Some in Hs as (pre & post & _ & Hm).
    apply matchBRDate_Some in Hm as (Hd & Hm & [Hl Hy] & _).
    destruct (padStart_digits12 _ Hd) as [-> [Hld Hdd]].
    destruct (padStart_digits12 _ Hm) as [-> [Hlm Hdm]].
    exists y, (zeroPadded m), (zeroPadded d). by repeat split.
  - destruct (JSText.search matchBRDate dateStr) as [[[d m] y]|] eqn:Hs.
    + split; [done|]. intros Hno. exfalso. apply Hno.
      apply search_Some in Hs as (pre & post & -> & Hm).
      apply matchBRDate_Some in Hm as (Hd & Hm & Hy & rest & ->).
      by exists pre, d, m, y, rest.
    + split; [|done]. intros _ (pre & d & m & y & post & Hd & Hm & Hy & ->).
      rewrite search_None in Hs.
      specialize (Hs pre _ eq_refl).
      rewrite (proj2 (matchBRDate_Some _ d m y)) in Hs; [done|].
      repeat (split; [done|]). by exists post.
Qed.

(** X6. A text that begins with DD/MM/YYYY parses to YYYY-MM-DD, whatever
    follows the year (the time of day, for one). *)
Theorem parseDate_leading (day month year rest : string) :
  digitsN 2 day → digitsN 2 month → digitsN 4 year →
  Scrape.parseDate (day ++ "/" ++ month ++ "/" ++ year ++ rest)
  = Some (year ++ "-" ++ month ++ "-" ++ day)%string.
Proof.
  intros Hd Hm Hy. unfold Scrape.parseDate.
  rewrite (search_head Scrape.matchDate _ (day, month, year)); [done|].
  apply matchDate_Some. repeat (split; [done|]). by exists rest.
Qed.

(** X7. What [parseDate] returns is always of the form YYYY-MM-DD; it
    returns null exactly when no DD/MM/YYYY occurs anywhere in the text, so
    a day or a month of one digit is not accepted. *)
Theorem parseDate_result (s : string) :
  (∀ r, Scrape.parseDate s = Some r → isoShaped r)
  ∧ (Scrape.parseDate s = None
     ↔ ¬ ∃ pre day month year post,
           digitsN 2 day ∧ digitsN 2 month ∧ digitsN 4 year
           ∧ s = (pre ++ day ++ "/" ++ month ++ "/" ++ year ++ post)%string).
Proof.
  unfold Scrape.parseDate. split.
  - intros r.
    destruct (JSText.search Scrape.matchDate s) as [[[d m] y]|] eqn:Hs; [|done].
    intros [= <-]. apply search_Some in Hs as (pre & post & _ & Hm).
    apply matchDate_Some in Hm as ([Hld Hdd] & [Hlm Hdm] & [Hl Hy] & _).
    exists y, m, d. by repeat split.
  - destruct (JSText.search Scrape.matchDate s) as [[[d m] y]|] eqn:Hs.
    + split; [done|]. intros Hno. exfalso. apply Hno.
      apply search_Some in Hs as (pre & post & -> & Hm).
      apply matchDate_Some in Hm as (Hd & Hm & Hy & rest & ->).
      by exists pre, d, m, y, rest.
    + split; [|done]. intros _ (pre & d & m & y & post & Hd & Hm & Hy & ->).
      rewrite search_None in Hs.
      specialize (Hs pre _ eq_refl).
      rewrite (proj2 (matchDate_Some _ d m y)) in Hs; [done|].
      repeat (split; [done|]). by exists post.
Qed.

(** X8. [parseBRDate] accepts every text that [parseDate] accepts, and on
    a text that begins with DD/MM/YYYY the two return the same date. *)
Theorem parseBRDate_accepts_parseDate (s : string) :
  (Scrape.parseDate s ≠ None → parseBRDate s ≠ None)
  ∧ (∀ day month year rest,
       digitsN 2 day → digitsN 2 month → digitsN 4 year →
       s = (day ++ "/" ++ month ++ "/" ++ year ++ rest)%string →
       parseBRDate s = Scrape.parseDate s).
Proof.
  unfold parseBRDate, Scrape.parseDate. split.
  - destruct (JSText.search Scrape.matchDate s) as [[[d m] y]|] eqn:Hs; [|done].
    intros _.
    apply search_Some in Hs as (pre & post & -> & Hm).
    apply matchDate_Some in Hm as (Hd & Hm & Hy & rest & ->).
    destruct (JSText.search matchBRDate _) as [[[d' m'] y']|] eqn:Hbr; [done|].
    rewrite search_None in Hbr. specialize (Hbr pre _ eq_refl).
    rewrite (proj2 (matchBRDate_Some _ d m y)) in Hbr; [done|].
    split; [by apply digitsN2_digits12|].
    split; [by apply digitsN2_digits12|]. split; [done|]. by exists rest.
  - intros day month year rest Hd Hm Hy ->.
    rewrite (search_head Scrape.matchDate _ (day, month, year)).
    + rewrite (search_head matchBRDate _ (day, month, year)).
      * apply digitsN2_digits12 in Hd as Hd', Hm as Hm'.
        rewrite (proj1 (padStart_digits12 _ Hd')).
        rewrite (proj1 (padStart_digits12 _ Hm')).
        unfold zeroPadded. destruct Hd as [-> _], Hm as [-> _]. done.
      * apply matchBRDate_Some.
        split; [by apply digitsN2_digits12|].
        split; [by apply digitsN2_digits12|]. split; [done|]. by exists rest.
    + apply matchDate_Some. repeat (split; [done|]). by exists rest.
Qed.

(** ** Maps in insertion order *)

Section MapFacts.
Context {V : Type}.
Implicit Types (m : list (string * V)) (k : string) (v : V).

Lemma Map_get_None k m : JSMap.get k m = None ↔ k ∉ map fst m.
Proof.
  induction m as [|[k' v'] m IH]; simpl.
  - split; [intros _; apply not_elem_of_nil|done].
  - rewrite not_elem_of_cons.
    destruct (String.eqb_spec k' k) as [->|Hne].
    + split; [done|]. by intros [? _].
    + rewrite IH. split; [by split|by intros [_ ?]].
Qed.

Lemma Map_get_Some_elem k v m : JSMap.get k m = Some v → (k, v) ∈ m.
Proof.
  induction m as [|[k' v'] m IH]; simpl; [done|].
  destruct (String.eqb_spec k' k) as [->|Hne].
  - intros [= ->]. by left.
  - intros Hg. right. by apply IH.
Qed.

Lemma Map_get_set k v m k' :
  JSMap.get k' (JSMap.set k v m)
  = if String.eqb k k' then Some v else JSMap.get k' m.
Proof.
  induction m as [|[k0 v0] m IH]; simpl; [done|].
  destruct (String.eqb_spec k0 k) as [->|Hne]; simpl.
  - by destruct (String.eqb_spec k k').
  - destruct (String.eqb_spec k0 k') as [->|Hne'].
    + destruct (String.eqb_spec k k'); [congruence|done].
    + apply IH.
Qed.

Lemma Map_set_keys k v m :
  map fst (JSMap.set k v m)
  = if JSMap.has k m then map fst m else map fst m ++ [k].
Proof.
  unfold JSMap.has. induction m as [|[k0 v0] m IH]; simpl; [done|].
  destruct (String.eqb_spec k0 k) as [->|Hne]; simpl; [done|].
  rewrite IH. by destruct (JSMap.get k m).
Qed.

Lemma Map_set_absent k v m :
  JSMap.has k m = false → JSMap.set k v m = m ++ [(k, v)].
Proof.
  unfold JSMap.has. induction m as [|[k0 v0] m IH]; simpl; [done|].
  destruct (String.eqb_spec k0 k) as [->|Hne]; [done|].
  intros Hg. by rewrite IH.
Qed.

Lemma Map_set_elem k v m k' v' :
  (k', v') ∈ JSMap.set k v m → (k', v') = (k, v) ∨ (k', v') ∈ m.
Proof.
  induction m as [|[k0 v0] m IH]; simpl.
  - intros ->%list_elem_of_singleton. by left.
  - destruct (String.eqb_spec k0 k) as [->|Hne].
    + intros [->|Hin]%elem_of_cons; [by left|right; by right].
    + intros [->|Hin]%elem_of_cons; [right; by left|].
      destruct (IH Hin); [by left|right; by right].
Qed.

Lemma Map_set_NoDup k v m :
  NoDup (map fst m) → NoDup (map fst (JSMap.set k v m)).
Proof.
  intros Hm. rewrite Map_set_keys. unfold JSMap.has.
  destruct (JSMap.get k m) eqn:Hg; [done|].
  apply Map_get_None in Hg.
  apply NoDup_app. split; [done|]. split; [|apply NoDup_singleton].
  intros x Hx ->%list_elem_of_singleton. done.
Qed.

End MapFacts.

Lemma foldl_invariant {A B : Type} (f : A → B → A) (init : A)
  (P : list B → A → Prop) :
  P [] init →
  (∀ processed st x, P processed st → P (processed ++ [x]) (f st x)) →
  ∀ l, P l (foldl f init l).
Proof.
  intros Hnil Hstep l. induction l as [|x l IH] using rev_ind; [done|].
  rewrite foldl_snoc. by apply Hstep.
Qed.

(** ** The stand-alone scraper: deduplication by key *)

Lemma JS_lt_true (x y : Q) : JS.lt x y = true ↔ (x < y)%Q.
Proof.
  unfold JS.lt. rewrite negb_true_iff. apply Qle_bool_false.
Qed.

Lemma JS_lt_false (x y : Q) : JS.lt x y = false ↔ (y <= x)%Q.
Proof.
  unfold JS.lt. rewrite negb_false_iff. apply Qle_bool_iff.
Qed.

Section ScrapeDedup.
Context `{Externals} `{ScrapeExternals}.
Implicit Types (m : list (string * Scrape.Property)) (p q : Scrape.Property)
  (l : list Scrape.Property).

(** An iteration either stores the record under its key, and then any
    record stored there before had a smaller discount, or leaves the map
    alone, and then the record stored under the key has a discount at
    least as large. *)
Lemma scrape_dedupStep_cases m p :
  (Scrape.dedupStep m p = JSMap.set (Scrape.dedupKey p) p m
   ∧ ∀ q, JSMap.get (Scrape.dedupKey p) m = Some q →
          (Scrape.desconto q < Scrape.desconto p)%Q)
  ∨ (Scrape.dedupStep m p = m
     ∧ ∃ q, JSMap.get (Scrape.dedupKey p) m = Some q
            ∧ (Scrape.desconto p <= Scrape.desconto q)%Q).
Proof.
  unfold Scrape.dedupStep, JSMap.has.
  destruct (JSMap.get (Scrape.dedupKey p) m) as [q|] eqn:Hg; simpl.
  - destruct (JS.lt (Scrape.desconto q) (Scrape.desconto p)) eqn:Hlt.
    + left. split; [done|]. intros q' [= <-]. by apply JS_lt_true.
    + right. split; [done|]. exists q. split; [done|]. by apply JS_lt_false.
  - left. split; [done|]. by intros q [=].
Qed.

Lemma scrape_dedup_invariant l :
  let m := foldl Scrape.dedupStep [] l in
  NoDup (map fst m)
  ∧ (∀ k v, (k, v) ∈ m → k = Scrape.dedupKey v ∧ v ∈ l)
  ∧ (∀ p, p ∈ l →
          ∃ q, JSMap.get (Scrape.dedupKey p) m = Some q
               ∧ (Scrape.desconto p <= Scrape.desconto q)%Q)
  ∧ (∀ k, k ∈ map fst m ↔ k ∈ map Scrape.dedupKey l).
Proof.
  apply (foldl_invariant Scrape.dedupStep []
    (λ l m,
       NoDup (map fst m)
       ∧ (∀ k v, (k, v) ∈ m → k = Scrape.dedupKey v ∧ v ∈ l)
       ∧ (∀ p, p ∈ l →
               ∃ q, JSMap.get (Scrape.dedupKey p) m = Some q
                    ∧ (Scrape.desconto p <= Scrape.desconto q)%Q)
       ∧ (∀ k, k ∈ map fst m ↔ k ∈ map Scrape.dedupKey l))).
  - split; [constructor|]. split; [by intros k v ?%elem_of_nil|].
    split; [by intros p ?%elem_of_nil|]. done.
  - clear l. intros l m p (Hnd & Helem & Hbest & Hkeys).
    destruct (scrape_dedupStep_cases m p) as [[-> Hlt]|[-> (q & Hg & Hle)]].
    + split; [by apply Map_set_NoDup|]. split; [|split].
      * intros k v [[= -> ->]|Hin]%Map_set_elem.
        -- split; [done|]. apply elem_of_app. right. by left.
        -- destruct (Helem k v Hin). split; [done|].
           apply elem_of_app. by left.
      * intros p' Hp'. rewrite Map_get_set.
        destruct (String.eqb_spec (Scrape.dedupKey p) (Scrape.dedupKey p'))
          as [Heq|Hne].
        -- exists p. split; [done|].
           apply elem_of_app in Hp' as [Hp'| ->%list_elem_of_singleton];
             [|apply Qle_refl].
           destruct (Hbest p' Hp') as (q & Hg & Hle).
           rewrite <- Heq in Hg. specialize (Hlt q Hg).
           apply Qlt_le_weak. eapply Qle_lt_trans; eassumption.
        -- apply elem_of_app in Hp' as [Hp'| ->%list_elem_of_singleton];
             [by apply Hbest|done].
      * intros k. rewrite Map_set_keys, map_app, elem_of_app. simpl.
        rewrite list_elem_of_singleton, <- Hkeys.
        unfold JSMap.has.
        destruct (JSMap.get (Scrape.dedupKey p) m) eqn:Hg.
        -- split; [by left|]. intros [Hk| ->]; [done|].
           apply Map_get_Some_elem in Hg.
           change (Scrape.dedupKey p) with (fst (Scrape.dedupKey p, p0)).
           by apply list_elem_of_fmap_2.
        -- rewrite elem_of_app, list_elem_of_singleton. done.
    + split; [done|]. split; [|split].
      * intros k v Hin. destruct (Helem k v Hin). split; [done|].
        apply elem_of_app. by left.
      * intros p' [Hp'| ->%list_elem_of_singleton]%elem_of_app;
          [by apply Hbest|by exists q].
      * intros k. rewrite map_app, elem_of_app. simpl.
        rewrite list_elem_of_singleton, <- Hkeys.
        split; [by left|]. intros [Hk| ->]; [done|].
        apply Map_get_Some_elem in Hg.
        change (Scrape.dedupKey p) with (fst (Scrape.dedupKey p, q)).
        by apply list_elem_of_fmap_2.
Qed.

Lemma scrape_dedup_keys l :
  map Scrape.dedupKey (Scrape.deduplicateProperties l)
  = map fst (foldl Scrape.dedupStep [] l).
Proof.
  destruct (scrape_dedup_invariant l) as (_ & Helem & _).
  unfold Scrape.deduplicateProperties, JSMap.values.
  rewrite map_map. apply map_ext_in. intros [k v] Hin. simpl.
  apply list_elem_of_In in Hin. symmetry. by apply Helem.
Qed.

(** A list of records with distinct keys goes through unchanged. *)
Lemma scrape_dedup_distinct l :
  NoDup (map Scrape.dedupKey l) → Scrape.deduplicateProperties l = l.
Proof.
  intros Hnd. unfold Scrape.deduplicateProperties, JSMap.values.
  enough (foldl Scrape.dedupStep [] l = map (λ p, (Scrape.dedupKey p, p)) l)
    as ->.
  { rewrite map_map. simpl. apply map_id. }
  revert Hnd. induction l as [|p l IH] using rev_ind; [done|].
  rewrite map_app. simpl. intros [Hl [Hp _]]%NoDup_app.
  rewrite foldl_snoc, IH by done. rewrite map_app. simpl.
  unfold Scrape.dedupStep.
  assert (JSMap.has (Scrape.dedupKey p)
            (map (λ p0, (Scrape.dedupKey p0, p0)) l) = false) as Hhas.
  { unfold JSMap.has.
    destruct (JSMap.get _ _) eqn:Hg; [|done]. exfalso.
    assert (JSMap.get (Scrape.dedupKey p)
              (map (λ p0, (Scrape.dedupKey p0, p0)) l) ≠ None) as Hn
      by congruence.
    rewrite Map_get_None, map_map in Hn. simpl in Hn.
    apply Hn. intros Hin. apply (Hp _ Hin). by left. }
  rewrite Hhas. simpl. by apply Map_set_absent.
Qed.

(** X9. The output of the scraper's [deduplicateProperties] holds no two
    records with the same key, every record of it is an input record, and
    it has one record for each distinct key of the input. *)
Theorem scrape_dedup_one_per_key l :
  NoDup (map Scrape.dedupKey (Scrape.deduplicateProperties l))
  ∧ (∀ q, q ∈ Scrape.deduplicateProperties l → q ∈ l)
  ∧ length (Scrape.deduplicateProperties l)
    = size (list_to_set (map Scrape.dedupKey l) : gset string).
Proof.
  destruct (scrape_dedup_invariant l) as (Hnd & Helem & _ & Hkeys).
  split; [by rewrite scrape_dedup_keys|]. split.
  - unfold Scrape.deduplicateProperties, JSMap.values.
    intros q ([k v] & -> & Hin)%list_elem_of_fmap. by apply (Helem k v).
  - rewrite <- (length_map Scrape.dedupKey), scrape_dedup_keys.
    rewrite <- (size_list_to_set (C := gset string)) by done.
    f_equal. apply set_eq. intros k. rewrite !elem_of_list_to_set. apply Hkeys.
Qed.

(** X10. For every input record the output holds a record with the same
    key whose discount is at least as large: under each key the largest
    discount survives. *)
Theorem scrape_dedup_keeps_best l p :
  p ∈ l →
  ∃ q, q ∈ Scrape.deduplicateProperties l
       ∧ Scrape.dedupKey q = Scrape.dedupKey p
       ∧ (Scrape.desconto p <= Scrape.desconto q)%Q.
Proof.
  intros Hp. destruct (scrape_dedup_invariant l) as (_ & Helem & Hbest & _).
  destruct (Hbest p Hp) as (q & Hg & Hle). exists q.
  apply Map_get_Some_elem in Hg.
  split; [|split; [|done]].
  - unfold Scrape.deduplicateProperties, JSMap.values.
    change q with (snd (Scrape.dedupKey p, q)). by apply list_elem_of_fmap_2.
  - symmetry. by apply (Helem _ _ Hg).
Qed.

(** X11. The scraper's [deduplicateProperties] returns a list of records
    with pairwise distinct keys unchanged, and so running it on its own
    output changes nothing. *)
Theorem scrape_dedup_idempotent l :
  (NoDup (map Scrape.dedupKey l) → Scrape.deduplicateProperties l = l)
  ∧ Scrape.deduplicateProperties (Scrape.deduplicateProperties l)
    = Scrape.deduplicateProperties l.
Proof.
  split; [apply scrape_dedup_distinct|].
  apply scrape_dedup_distinct. rewrite scrape_dedup_keys.
  apply (scrape_dedup_invariant l).
Qed.

End ScrapeDedup.

(** ** The stand-alone scraper: filter, order and the whole run *)

Lemma scrape_keeps_iff (p : Scrape.Property) :
  Scrape.keeps p = true
  ↔ (Scrape.lance p <= 800000)%Q
    ∧ ((Scrape.desconto p <= 0)%Q ∨ (40 <= Scrape.desconto p)%Q)
    ∧ ¬ (Scrape.fonte p = "Caixa Econômica"%string
         ∧ (Scrape.desconto p == 0)%Q).
Proof.
  unfold Scrape.keeps, Scrape.MAX_PRICE, Scrape.MIN_DISCOUNT.
  destruct (JS.lt 800000 (Scrape.lance p)) eqn:Hl;
    [apply JS_lt_true in Hl|apply JS_lt_false in Hl].
  { split; [done|]. intros [Hle _]. exfalso. lra. }
  destruct (JS.lt 0 (Scrape.desconto p)) eqn:H0;
    [apply JS_lt_true in H0|apply JS_lt_false in H0];
    (destruct (JS.lt (Scrape.desconto p) 40) eqn:H40;
     [apply JS_lt_true in H40|apply JS_lt_false in H40]); simpl.
  - split; [done|]. intros (_ & [Hd|Hd] & _); exfalso; lra.
  - destruct (String.eqb_spec (Scrape.fonte p) "Caixa Econômica") as [Hf|Hf];
      simpl.
    + destruct (Qeq_bool (Scrape.desconto p) 0) eqn:Hz;
        [apply Qeq_bool_iff in Hz|apply Qeq_bool_false in Hz].
      * split; [done|]. intros (_ & _ & Hn). exfalso. by apply Hn.
      * split; [|done]. intros _. split; [done|]. split; [by right|].
        by intros [_ ?].
    + split; [|done]. intros _. split; [done|]. split; [by right|].
      by intros [? _].
  - destruct (String.eqb_spec (Scrape.fonte p) "Caixa Econômica") as [Hf|Hf];
      simpl.
    + destruct (Qeq_bool (Scrape.desconto p) 0) eqn:Hz;
        [apply Qeq_bool_iff in Hz|apply Qeq_bool_false in Hz].
      * split; [done|]. intros (_ & _ & Hn). exfalso. by apply Hn.
      * split; [|done]. intros _. split; [done|]. split; [by left|].
        by intros [_ ?].
    + split; [|done]. intros _. split; [done|]. split; [by left|].
      by intros [? _].
  - destruct (String.eqb_spec (Scrape.fonte p) "Caixa Econômica") as [Hf|Hf];
      simpl.
    + destruct (Qeq_bool (Scrape.desconto p) 0) eqn:Hz;
        [apply Qeq_bool_iff in Hz|apply Qeq_bool_false in Hz].
      * split; [done|]. intros (_ & _ & Hn). exfalso. by apply Hn.
      * split; [|done]. intros _. split; [done|]. split; [by left|].
        by intros [_ ?].
    + split; [|done]. intros _. split; [done|]. split; [by left|].
      by intros [? _].
Qed.

Lemma filter_all {A : Type} (f : A → bool) (l : list A) :
  (∀ x, x ∈ l → f x = true) → List.filter f l = l.
Proof.
  induction l as [|x l IH]; simpl; [done|]. intros Hall.
  rewrite (Hall x) by left. f_equal. apply IH. intros y Hy. apply Hall. by right.
Qed.

Lemma filter_elem {A : Type} (f : A → bool) (l : list A) (x : A) :
  x ∈ List.filter f l ↔ x ∈ l ∧ f x = true.
Proof. rewrite !list_elem_of_In. apply filter_In. Qed.

Lemma filter_sublist {A : Type} (f : A → bool) (l : list A) :
  sublist (List.filter f l) l.
Proof.
  induction l as [|x l IH]; simpl; [constructor|].
  destruct (f x); by constructor.
Qed.

(** X12. [filterProperties] returns, in their order, exactly the records
    with a price of at most 800000 whose discount is not strictly between
    0 and 40, except the Caixa records with a discount of exactly 0: a
    record with a zero discount from another source, or with a negative
    discount, is kept. *)
Theorem filterProperties_keeps (l : list Scrape.Property) :
  sublist (Scrape.filterProperties l) l
  ∧ ∀ p, p ∈ Scrape.filterProperties l
         ↔ p ∈ l
           ∧ (Scrape.lance p <= 800000)%Q
           ∧ ((Scrape.desconto p <= 0)%Q ∨ (40 <= Scrape.desconto p)%Q)
           ∧ ¬ (Scrape.fonte p = "Caixa Econômica"%string
                ∧ (Scrape.desconto p == 0)%Q).
Proof.
  split; [apply filter_sublist|].
  intros p. unfold Scrape.filterProperties.
  by rewrite filter_elem, scrape_keeps_iff.
Qed.

(** X13. For records with the same price and discount, [meetsFilters] of
    the shared utilities is the stricter filter: what it accepts the
    scraper's own filter keeps, while the records that filter keeps with a
    discount of zero or less [meetsFilters] rejects. *)
Theorem meetsFilters_stricter_than_keeps (p : Scrape.Property) (q : Property) :
  lance q = Scrape.lance p → desconto q = Some (Scrape.desconto p) →
  (meetsFilters q = true → Scrape.keeps p = true)
  ∧ ((Scrape.desconto p <= 0)%Q → meetsFilters q = false).
Proof.
  intros Hl Hd. unfold meetsFilters. rewrite Hd, Hl.
  unfold MIN_DISCOUNT, MAX_PRICE. split.
  - destruct (JS.lt (Scrape.desconto p) 40) eqn:H40; [done|].
    destruct (JS.lt 800000 (Scrape.lance p)) eqn:H8; [done|].
    intros _. apply JS_lt_false in H40, H8.
    apply scrape_keeps_iff. split; [done|]. split; [by right|].
    intros [_ Hz]. lra.
  - intros Hle.
    assert (JS.lt (Scrape.desconto p) 40 = true) as ->; [|done].
    apply JS_lt_true. lra.
Qed.

(** The ranking order of the scraper. *)
Lemma scrape_rankLeb_total (a b : Scrape.Property) :
  Scrape.rankLeb a b = true ∨ Scrape.rankLeb b a = true.
Proof.
  unfold Scrape.rankLeb.
  destruct (Scrape.prioridade a), (Scrape.prioridade b); simpl; auto.
  all: destruct (Qle_bool (Scrape.desconto b) (Scrape.desconto a)) eqn:E;
    [by left|right; apply Qle_bool_false in E; apply Qle_bool_iff; lra].
Qed.

Lemma scrape_rankLeb_trans (a b c : Scrape.Property) :
  Scrape.rankLeb a b = true → Scrape.rankLeb b c = true →
  Scrape.rankLeb a c = true.
Proof.
  unfold Scrape.rankLeb.
  destruct (Scrape.prioridade a), (Scrape.prioridade b),
    (Scrape.prioridade c); simpl; try done.
  all: rewrite !Qle_bool_iff; intros; lra.
Qed.

Lemma scrape_rankLeb_rankedBefore (a b : Scrape.Property) :
  Scrape.rankLeb a b = true ↔ Scrape.rankedBefore a b.
Proof.
  unfold Scrape.rankLeb, Scrape.rankedBefore.
  destruct (Scrape.prioridade a), (Scrape.prioridade b); simpl;
    rewrite ?Qle_bool_iff; split; try done; auto.
  all: intros [[? ?]|[? ?]]; done.
Qed.

Lemma scrape_sameRank_rankLeb (a b : Scrape.Property) :
  Scrape.sameRank a b = Scrape.rankLeb a b && Scrape.rankLeb b a.
Proof.
  unfold Scrape.sameRank, Scrape.rankLeb.
  destruct (Scrape.prioridade a), (Scrape.prioridade b); simpl; try done;
    rank_cases; simpl; try done; exfalso; lra.
Qed.

Lemma scrape_sort_rankLeb (l : list Scrape.Property) :
  Scrape.sortProperties l = JS.sort_by Scrape.rankLeb l.
Proof.
  apply Array_sort_sort_by;
    [apply scrape_rankLeb_total|apply scrape_rankLeb_trans|].
  intros a b _ _. unfold JS.lt. rewrite negb_involutive.
  unfold Scrape.compareFn, Scrape.rankLeb.
  destruct (Scrape.prioridade a), (Scrape.prioridade b); simpl; try done.
  all: rank_cases; try done; exfalso; lra.
Qed.

(** X14. [sortProperties] rearranges its list so that priority records
    come first and, among records of the same priority, larger discounts
    come first; records equal on both keys keep their relative order. *)
Theorem sortProperties_stably_ranked (l : list Scrape.Property) :
  Scrape.sortProperties l ≡ₚ l
  ∧ (∀ i j a b, (i < j)%nat →
                Scrape.sortProperties l !! i = Some a →
                Scrape.sortProperties l !! j = Some b →
                Scrape.rankedBefore a b)
  ∧ (∀ r, List.filter (Scrape.sameRank r) (Scrape.sortProperties l)
          = List.filter (Scrape.sameRank r) l).
Proof.
  rewrite scrape_sort_rankLeb. split; [apply sort_by_perm|]. split.
  - intros i j a b Hij Hi Hj. apply scrape_rankLeb_rankedBefore.
    eapply (StronglySorted_lookup (λ x y, Scrape.rankLeb x y = true));
      try eassumption.
    apply sort_by_sorted; [apply scrape_rankLeb_total|apply scrape_rankLeb_trans].
  - intros r.
    rewrite !(List.filter_ext (Scrape.sameRank r) _ (scrape_sameRank_rankLeb r)).
    apply sort_by_stable. apply scrape_rankLeb_trans.
Qed.

Section ScrapeRun.
Context `{Externals} `{ScrapeExternals}.
Implicit Types (p q : Scrape.Property) (l : list Scrape.Property).

Lemma scrape_process_perm l :
  Scrape.process l
  ≡ₚ Scrape.deduplicateProperties (Scrape.filterProperties l).
Proof.
  unfold Scrape.process. rewrite scrape_sort_rankLeb. apply sort_by_perm.
Qed.

Lemma scrape_dedup_subset l q :
  q ∈ Scrape.deduplicateProperties l → q ∈ l.
Proof.
  destruct (scrape_dedup_invariant l) as (_ & Helem & _).
  unfold Scrape.deduplicateProperties, JSMap.values.
  intros ([k v] & -> & Hin)%list_elem_of_fmap. by apply (Helem k v).
Qed.

Lemma scrape_process_keys_NoDup l :
  NoDup (map Scrape.dedupKey (Scrape.process l)).
Proof.
  rewrite scrape_process_perm, scrape_dedup_keys.
  apply (scrape_dedup_invariant (Scrape.filterProperties l)).
Qed.

(** X15. The records that a run of the scraper saves are input records
    that pass the filter, no two of them share a key, and they are ranked
    by priority and discount; every input record that passes the filter is
    represented by a saved record with the same key and a discount at
    least as large. *)
Theorem scrape_process_result l :
  (∀ q, q ∈ Scrape.process l → q ∈ l ∧ Scrape.keeps q = true)
  ∧ NoDup (map Scrape.dedupKey (Scrape.process l))
  ∧ (∀ i j a b, (i < j)%nat →
                Scrape.process l !! i = Some a →
                Scrape.process l !! j = Some b →
                Scrape.rankedBefore a b)
  ∧ (∀ p, p ∈ l → Scrape.keeps p = true →
          ∃ q, q ∈ Scrape.process l
               ∧ Scrape.dedupKey q = Scrape.dedupKey p
               ∧ (Scrape.desconto p <= Scrape.desconto q)%Q).
Proof.
  split; [|split; [apply scrape_process_keys_NoDup|split]].
  - intros q Hq. rewrite scrape_process_perm in Hq.
    apply scrape_dedup_subset in Hq.
    by apply filter_elem in Hq.
  - unfold Scrape.process. rewrite scrape_sort_rankLeb.
    intros i j a b Hij Hi Hj. apply scrape_rankLeb_rankedBefore.
    eapply (StronglySorted_lookup (λ x y, Scrape.rankLeb x y = true));
      try eassumption.
    apply sort_by_sorted; [apply scrape_rankLeb_total|apply scrape_rankLeb_trans].
  - intros p Hp Hk.
    destruct (scrape_dedup_invariant (Scrape.filterProperties l))
      as (_ & Helem & Hbest & _).
    destruct (Hbest p) as (q & Hg & Hle); [by apply filter_elem|].
    apply Map_get_Some_elem in Hg. exists q. split; [|split; [|done]].
    + rewrite scrape_process_perm.
      unfold Scrape.deduplicateProperties, JSMap.values.
      change q with (snd (Scrape.dedupKey p, q)). by apply list_elem_of_fmap_2.
    + symmetry. by apply (Helem _ _ Hg).
Qed.

(** X16. Running the scraper's processing steps on their own output
    changes nothing. *)
Theorem scrape_process_idempotent l :
  Scrape.process (Scrape.process l) = Scrape.process l.
Proof.
  set (out := Scrape.process l).
  assert (Scrape.filterProperties out = out) as Hf.
  { apply filter_all. intros q Hq. unfold out in Hq.
    rewrite scrape_process_perm in Hq. apply scrape_dedup_subset in Hq.
    by apply filter_elem in Hq as [_ Hk]. }
  assert (Scrape.deduplicateProperties out = out) as Hd.
  { apply scrape_dedup_distinct, scrape_process_keys_NoDup. }
  unfold Scrape.process at 1. rewrite Hf, Hd.
  rewrite scrape_sort_rankLeb. apply sort_by_of_sorted.
  unfold out, Scrape.process. rewrite scrape_sort_rankLeb.
  apply sort_by_sorted; [apply scrape_rankLeb_total|apply scrape_rankLeb_trans].
Qed.

End ScrapeRun.

(** ** More on deduplication by similarity *)

Lemma shouldReplace_score (existing newProp : Property) :
  (shouldReplace existing newProp = true →
   scoreProperty existing ≤ scoreProperty newProp)
  ∧ (shouldReplace existing newProp = false →
     scoreProperty newProp ≤ scoreProperty existing).
Proof.
  unfold shouldReplace.
  destruct (Z.ltb_spec (scoreProperty existing) (scoreProperty newProp));
    [split; [lia|done]|].
  destruct (Z.eqb_spec (scoreProperty newProp) (scoreProperty existing));
    split; intros; lia.
Qed.

Section DedupMore.
Context `{Externals}.
Implicit Types (deduplicated processed : list Property) (seen : list string)
  (property existing : Property).

Lemma dedupStep_seen_incl deduplicated seen property a :
  a ∈ seen → a ∈ (dedupStep (deduplicated, seen) property).2.
Proof.
  intros Ha.
  destruct (dedupStep_cases deduplicated seen property)
    as [[_ ->]|(k & b & _ & _ & [(i & existing & _ & _ & _ & ->)| ->])];
    simpl; [by apply Set_add_incl|done..].
Qed.

(** X17. No record is dropped without a reason: the normalized address of
    every input record is in the final seen set or reaches the threshold
    against an address of that set. *)
Theorem every_input_represented (sources : list (list Property)) (p : Property) :
  p ∈ concat sources →
  normalizeText (endereco p) ∈ (dedupLoop (concat sources)).2
  ∨ ∃ a, a ∈ (dedupLoop (concat sources)).2
         ∧ similar (normalizeText (endereco p)) a = true.
Proof.
  revert p.
  apply (dedupLoop_ind (λ processed st, ∀ p, p ∈ processed →
    normalizeText (endereco p) ∈ st.2
    ∨ ∃ a, a ∈ st.2 ∧ similar (normalizeText (endereco p)) a = true)).
  - by intros p ?%elem_of_nil.
  - intros processed [deduplicated seen] property IH p. simpl in IH.
    intros [Hp| ->%list_elem_of_singleton]%elem_of_app.
    + destruct (IH p Hp) as [Hin|(a & Hin & Ha)].
      * left. by apply dedupStep_seen_incl.
      * right. exists a. split; [by apply dedupStep_seen_incl|done].
    + destruct (dedupStep_cases deduplicated seen property)
        as [[_ ->]|(k & a & Hk & Ha & [(i & existing & _ & _ & _ & ->)| ->])];
        simpl.
      * left. apply Set_add_elem.
      * right. exists a. split; [by eapply list_elem_of_lookup_2|done].
      * right. exists a. split; [by eapply list_elem_of_lookup_2|done].
Qed.

Lemma dedupStep_length deduplicated seen property :
  (length deduplicated ≤ length (dedupStep (deduplicated, seen) property).1)%nat
  ∧ (deduplicated = [] → seen = [] →
     dedupStep (deduplicated, seen) property
     = ([property], [normalizeText (endereco property)])).
Proof.
  split.
  - destruct (dedupStep_cases deduplicated seen property)
      as [[_ ->]|(k & a & _ & _ & [(i & existing & _ & _ & _ & ->)| ->])];
      simpl; [rewrite length_app; lia|by rewrite length_insert|done].
  - intros -> ->. by rewrite dedupStep_fresh.
Qed.

(** X18. [deduplicateProperties] returns the empty list only for an input
    without records: the first record is always emitted, and a later
    record never removes an emitted one. *)
Theorem deduplicateProperties_empty_iff (sources : list (list Property)) :
  deduplicateProperties sources = [] ↔ concat sources = [].
Proof.
  assert (∀ l, (dedupLoop l).1 = [] ↔ l = []) as Hloop.
  { intros l. split; [|by intros ->].
    apply (dedupLoop_ind (λ processed st,
      (processed = [] → st = ([], []))
      ∧ (st.1 = [] → processed = []))).
    - done.
    - intros processed [deduplicated seen] property [Hnil Hne]. simpl in Hne.
      split; [by intros ?%app_nil_r_inv || by intros [? ?]%app_eq_nil|].
      intros Hd.
      pose proof (proj1 (dedupStep_length deduplicated seen property)) as Hl.
      rewrite Hd in Hl. simpl in Hl.
      assert (deduplicated = []) as -> by (destruct deduplicated; [done|simpl in Hl; lia]).
      specialize (Hne eq_refl) as ->. specialize (Hnil eq_refl).
      injection Hnil as ->.
      by rewrite (proj2 (dedupStep_length [] [] property)) in Hd. }
  unfold deduplicateProperties.
  rewrite <- (Hloop (concat sources)).
  split; intros Hs.
  - apply Permutation_nil_r. rewrite <- Hs. symmetry. apply Array_sort_perm.
  - by rewrite Hs.
Qed.

(** X19. The seen set never has more entries than the emitted list, and
    when every address reaches the threshold against itself the two have
    the same length: one seen address for each emitted record. *)
Theorem seen_matches_emitted (allProperties : list Property) :
  (length (dedupLoop allProperties).2 ≤ length (dedupLoop allProperties).1)%nat
  ∧ ((∀ x, similar x x = true) →
     length (dedupLoop allProperties).2 = length (dedupLoop allProperties).1).
Proof.
  split.
  - apply (dedupLoop_ind (λ _ st, (length st.2 ≤ length st.1)%nat)); [done|].
    intros processed [deduplicated seen] property Hle. simpl in Hle.
    destruct (dedupStep_cases deduplicated seen property)
      as [[_ ->]|(k & a & _ & _ & [(i & existing & _ & _ & _ & ->)| ->])];
      simpl; [|by rewrite length_insert|done].
    rewrite length_app. simpl.
    destruct (Set_add_cases (normalizeText (endereco property)) seen)
      as [->| ->]; [lia|]. rewrite length_app. simpl. lia.
  - intros Hrefl.
    apply (dedupLoop_ind (λ _ st, length st.2 = length st.1)); [done|].
    intros processed [deduplicated seen] property Hle. simpl in Hle.
    destruct (dedupStep_cases deduplicated seen property)
      as [[Hn ->]|(k & a & _ & _ & [(i & existing & _ & _ & _ & ->)| ->])];
      simpl; [|by rewrite length_insert|done].
    unfold JS.Set_add, JS.Set_has. case_bool_decide as Hin.
    + specialize (Hn _ Hin). by rewrite Hrefl in Hn.
    + rewrite !length_app. simpl. lia.
Qed.

Lemma findSeen_single (n a : string) :
  similar n a = true → findSeen n [a] = Some (0%nat, a).
Proof.
  intros Hs. unfold findSeen. apply list_find_Some.
  split; [done|]. split; [done|]. intros j y _ Hj. lia.
Qed.

Lemma findIndex_single (a : string) existing :
  similar (normalizeText (endereco existing)) a = true →
  findIndex a [existing] = Some (0%nat, existing).
Proof.
  intros Hs. unfold findIndex. apply list_find_Some.
  split; [done|]. split; [done|]. intros j y _ Hj. lia.
Qed.

Lemma dedup_cluster_loop (a : string) (rest : list Property) (best : Property) :
  similar (normalizeText (endereco best)) a = true →
  (∀ p, p ∈ rest → similar (normalizeText (endereco p)) a = true) →
  ∃ best', foldl dedupStep ([best], [a]) rest = ([best'], [a])
           ∧ best' ∈ best :: rest
           ∧ scoreProperty best ≤ scoreProperty best'
           ∧ ∀ p, p ∈ rest → scoreProperty p ≤ scoreProperty best'.
Proof.
  revert best. induction rest as [|x rest IH]; intros best Hb Hall.
  - exists best. split; [done|]. split; [by left|]. split; [lia|].
    by intros p ?%elem_of_nil.
  - change (foldl dedupStep ([best], [a]) (x :: rest))
      with (foldl dedupStep (dedupStep ([best], [a]) x) rest).
    assert (similar (normalizeText (endereco x)) a = true) as Hx
      by (apply Hall; by left).
    rewrite (dedupStep_duplicate _ _ _ 0%nat a (findSeen_single _ _ Hx)).
    rewrite (findIndex_single _ _ Hb).
    destruct (shouldReplace_score best x) as [Hyes Hno].
    destruct (shouldReplace best x) eqn:Hr; simpl.
    + destruct (IH x Hx) as (best' & -> & Hin & Hle & Hmax).
      { intros p Hp. apply Hall. by right. }
      specialize (Hyes eq_refl).
      exists best'. split; [done|]. split; [by right|]. split; [lia|].
      intros p [->|Hp]%elem_of_cons; [done|by apply Hmax].
    + destruct (IH best Hb) as (best' & -> & Hin & Hle & Hmax).
      { intros p Hp. apply Hall. by right. }
      specialize (Hno eq_refl).
      exists best'. split; [done|]. split.
      { apply elem_of_cons in Hin as [->|Hin]; [by left|right; by right]. }
      split; [done|].
      intros p [->|Hp]%elem_of_cons; [lia|by apply Hmax].
Qed.

(** X20. When the address of every input record reaches the threshold
    against the address of the first one, the output is a single record,
    one of the input records with the highest completeness score. *)
Theorem one_cluster_keeps_best (sources : list (list Property))
  (first : Property) (rest : list Property) :
  concat sources = first :: rest →
  (∀ p, p ∈ first :: rest →
        similar (normalizeText (endereco p))
                (normalizeText (endereco first)) = true) →
  ∃ best, deduplicateProperties sources = [best]
          ∧ best ∈ first :: rest
          ∧ ∀ p, p ∈ first :: rest → scoreProperty p ≤ scoreProperty best.
Proof.
  intros Hsrc Hall. unfold deduplicateProperties, dedupLoop. rewrite Hsrc.
  change (foldl dedupStep ([], []) (first :: rest))
    with (foldl dedupStep (dedupStep ([], []) first) rest).
  rewrite (dedupStep_fresh [] [] first) by done.
  change (JS.Set_add ?x []) with [x]. simpl app.
  destruct (dedup_cluster_loop (normalizeText (endereco first)) rest first)
    as (best & -> & Hin & Hle & Hmax).
  { apply Hall. by left. }
  { intros p Hp. apply Hall. by right. }
  exists best. split; [done|]. split; [done|].
  intros p [->|Hp]%elem_of_cons; [done|by apply Hmax].
Qed.

(** X21. When a record is judged a duplicate of an emitted record, the
    record left at that position has the larger of the two completeness
    scores, and no other position changes. *)
Theorem duplicate_leaves_higher_score deduplicated seen property k a i existing :
  findSeen (normalizeText (endereco property)) seen = Some (k, a) →
  findIndex a deduplicated = Some (i, existing) →
  ∃ kept, (dedupStep (deduplicated, seen) property).1 !! i = Some kept
          ∧ scoreProperty kept
            = Z.max (scoreProperty existing) (scoreProperty property)
          ∧ ∀ j, j ≠ i →
                 (dedupStep (deduplicated, seen) property).1 !! j
                 = deduplicated !! j.
Proof.
  intros Hseen Hfound.
  rewrite (dedupStep_duplicate _ _ _ k a Hseen), Hfound.
  apply findIndex_Some in Hfound as [Hi _].
  destruct (shouldReplace_score existing property) as [Hyes Hno].
  destruct (shouldReplace existing property); simpl.
  - exists property. split.
    + apply list_lookup_insert_eq. by eapply lookup_lt_Some.
    + split; [specialize (Hyes eq_refl); lia|].
      intros j Hj. by apply list_lookup_insert_ne.
  - exists existing. split; [done|].
    split; [specialize (Hno eq_refl); lia|done].
Qed.

End DedupMore.

(** ** More on [markNewProperties] *)

Lemma spreadWithNovo_twice (p : Property) (a b : bool) :
  spreadWithNovo (spreadWithNovo p a) b = spreadWithNovo p b.
Proof. done. Qed.

(** X22. Tagging a list that is already tagged overwrites the flags: only
    the previous list of the last call decides, and the ids and the length
    of the list are unchanged. *)
Theorem markNewProperties_retag (current previous previous' : list Property) :
  markNewProperties (markNewProperties current previous) previous'
  = markNewProperties current previous'
  ∧ map id (markNewProperties current previous) = map id current
  ∧ length (markNewProperties current previous) = length current.
Proof.
  unfold markNewProperties. rewrite !map_map, length_map.
  split; [|split]; [|done..].
  apply map_ext. intros p. by rewrite spreadWithNovo_twice.
Qed.

(** X23. The previous list enters only through the set of its ids: two
    previous lists with the same ids, in any order and with any
    repetitions or other fields, give the same result. *)
Theorem markNewProperties_previous_ids (current previous previous' : list Property) :
  (∀ x, x ∈ map id previous ↔ x ∈ map id previous') →
  markNewProperties current previous = markNewProperties current previous'.
Proof.
  intros Hids. unfold markNewProperties. apply map_ext. intros p.
  do 3 f_equal. apply bool_decide_ext.
  rewrite !elem_of_list_to_set. apply Hids.
Qed.

(** X24. A list tagged against itself, or against any list that contains
    all its ids, has every record tagged as not new; tagged against the
    empty list every record is new. *)
Theorem markNewProperties_extremes (current previous : list Property) :
  ((∀ p, p ∈ current → id p ∈ map id previous) →
   ∀ q, q ∈ markNewProperties current previous → novo q = Some false)
  ∧ (∀ q, q ∈ markNewProperties current [] → novo q = Some true).
Proof.
  split.
  - intros Hsub q (i & Hq)%list_elem_of_lookup_1.
    rewrite markNewProperties_lookup in Hq.
    destruct (current !! i) as [p|] eqn:Hp; [|done].
    injection Hq as <-. simpl.
    rewrite bool_decide_eq_true_2; [done|].
    apply Hsub. by eapply list_elem_of_lookup_2.
  - intros q (i & Hq)%list_elem_of_lookup_1.
    rewrite markNewProperties_lookup in Hq.
    destruct (current !! i) as [p|] eqn:Hp; [|done].
    by injection Hq as <-.
Qed.

Section Pipeline.
Context `{Externals}.

(** X25. The filters survive the rest of the pipeline: when every record
    handed to [deduplicateProperties] meets the filters, so does every
    record of the deduplicated list after it is tagged by
    [markNewProperties]. *)
Theorem pipeline_preserves_filters (sources : list (list Property))
  (previous : list Property) :
  (∀ p, p ∈ concat sources → meetsFilters p = true) →
  ∀ q, q ∈ markNewProperties (deduplicateProperties sources) previous →
       meetsFilters q = true.
Proof.
  intros Hall q (i & Hq)%list_elem_of_lookup_1.
  rewrite markNewProperties_lookup in Hq.
  destruct (deduplicateProperties sources !! i) as [p|] eqn:Hp; [|done].
  injection Hq as <-.
  change (meetsFilters (spreadWithNovo p ?b)) with (meetsFilters p).
  apply Hall, dedupLoop_subset.
  apply list_elem_of_lookup_2 in Hp. revert Hp.
  unfold deduplicateProperties.
  by rewrite Array_sort_perm.
Qed.

End Pipeline.

(** ** The further properties on the sample records *)

Section FurtherOnAsciiText.
Import Examples ScrapeExamples.
Local Existing Instance AsciiText.externals.
Local Existing Instance ScrapeExamples.externals.

Lemma isPriorityNeighborhood_configured_witness :
  "Mercês"%string ∈ PRIORITY_NEIGHBORHOODS
  ∧ isPriorityNeighborhood "Mercês" = true.
Proof.
  assert ("Mercês"%string ∈ PRIORITY_NEIGHBORHOODS) as Hin
    by (unfold PRIORITY_NEIGHBORHOODS; repeat constructor).
  split; [exact Hin|].
  exact (isPriorityNeighborhood_configured "Mercês" Hin).
Defined.

Lemma isPriorityNeighborhood_empty_witness :
  String_toLowerCase EmptyString = EmptyString
  ∧ isPriorityNeighborhood EmptyString = true.
Proof.
  split; [reflexivity|].
  exact (isPriorityNeighborhood_empty EmptyString eq_refl).
Defined.

Lemma isPriority_configured_witness :
  "Batel"%string ∈ Scrape.PRIORITY_BAIRROS ∧ Scrape.isPriority "Batel" = true.
Proof.
  assert ("Batel"%string ∈ Scrape.PRIORITY_BAIRROS) as Hin
    by (unfold Scrape.PRIORITY_BAIRROS; repeat constructor).
  split; [exact Hin|].
  exact (isPriority_configured "Batel" Hin).
Defined.

Lemma parseBRDate_leading_witness :
  digits12 "9" ∧ digits12 "12" ∧ digitsN 4 "2026"
  ∧ parseBRDate ("9" ++ "/" ++ "12" ++ "/" ++ "2026" ++ " 11:08")
    = Some ("2026" ++ "-" ++ zeroPadded "12" ++ "-" ++ zeroPadded "9")%string.
Proof.
  assert (digits12 "9") as Hd by (split; [by left|reflexivity]).
  assert (digits12 "12") as Hm by (split; [by right|reflexivity]).
  assert (digitsN 4 "2026") as Hy by (split; reflexivity).
  split; [exact Hd|]. split; [exact Hm|]. split; [exact Hy|].
  exact (parseBRDate_leading "9" "12" "2026" " 11:08" Hd Hm Hy).
Defined.

Lemma parseBRDate_result_witness :
  parseBRDate "Encerra em 9/2/2026" = Some "2026-02-09"%string
  ∧ isoShaped "2026-02-09".
Proof.
  assert (parseBRDate "Encerra em 9/2/2026" = Some "2026-02-09"%string)
    as Hr by reflexivity.
  split; [exact Hr|].
  exact (proj1 (parseBRDate_result "Encerra em 9/2/2026") "2026-02-09"%string
               Hr).
Defined.

Lemma parseDate_leading_witness :
  digitsN 2 "09" ∧ digitsN 2 "02" ∧ digitsN 4 "2026"
  ∧ Scrape.parseDate ("09" ++ "/" ++ "02" ++ "/" ++ "2026" ++ " 11:08")
    = Some ("2026" ++ "-" ++ "02" ++ "-" ++ "09")%string.
Proof.
  assert (digitsN 2 "09") as Hd by (split; reflexivity).
  assert (digitsN 2 "02") as Hm by (split; reflexivity).
  assert (digitsN 4 "2026") as Hy by (split; reflexivity).
  split; [exact Hd|]. split; [exact Hm|]. split; [exact Hy|].
  exact (parseDate_leading "09" "02" "2026" " 11:08" Hd Hm Hy).
Defined.

Lemma parseDate_result_witness :
  Scrape.parseDate "Encerra em 09/02/2026" = Some "2026-02-09"%string
  ∧ isoShaped "2026-02-09".
Proof.
  assert (Scrape.parseDate "Encerra em 09/02/2026" = Some "2026-02-09"%string)
    as Hr by reflexivity.
  split; [exact Hr|].
  exact (proj1 (parseDate_result "Encerra em 09/02/2026") "2026-02-09"%string
               Hr).
Defined.

Lemma parseBRDate_accepts_parseDate_witness :
  Scrape.parseDate "Encerra em 09/02/2026" ≠ None
  ∧ parseBRDate "Encerra em 09/02/2026" ≠ None.
Proof.
  assert (Scrape.parseDate "Encerra em 09/02/2026" ≠ None) as Hs
    by (vm_compute; discriminate).
  split; [exact Hs|].
  exact (proj1 (parseBRDate_accepts_parseDate "Encerra em 09/02/2026") Hs).
Defined.

Lemma scrape_dedup_one_per_key_witness :
  caixaFlores ∈ Scrape.deduplicateProperties [zukFlores; caixaFlores; zukCentral]
  ∧ caixaFlores ∈ [zukFlores; caixaFlores; zukCentral].
Proof.
  assert (caixaFlores
          ∈ Scrape.deduplicateProperties [zukFlores; caixaFlores; zukCentral])
    as Hq by (vm_compute; repeat constructor).
  split; [exact Hq|].
  exact (proj1 (proj2 (scrape_dedup_one_per_key
                         [zukFlores; caixaFlores; zukCentral]))
               caixaFlores Hq).
Defined.

Lemma scrape_dedup_keeps_best_witness :
  zukFlores ∈ [zukFlores; caixaFlores; zukCentral]
  ∧ ∃ q, q ∈ Scrape.deduplicateProperties [zukFlores; caixaFlores; zukCentral]
         ∧ Scrape.dedupKey q = Scrape.dedupKey zukFlores
         ∧ (Scrape.desconto zukFlores <= Scrape.desconto q)%Q.
Proof.
  assert (zukFlores ∈ [zukFlores; caixaFlores; zukCentral]) as Hp
    by repeat constructor.
  split; [exact Hp|].
  exact (scrape_dedup_keeps_best [zukFlores; caixaFlores; zukCentral]
                                 zukFlores Hp).
Defined.

Lemma scrape_dedup_idempotent_witness :
  NoDup (map Scrape.dedupKey [zukFlores; zukCentral])
  ∧ Scrape.deduplicateProperties [zukFlores; zukCentral]
    = [zukFlores; zukCentral].
Proof.
  assert (NoDup (map Scrape.dedupKey [zukFlores; zukCentral])) as Hn.
  { apply (bool_decide_unpack _). by vm_compute. }
  split; [exact Hn|].
  exact (proj1 (scrape_dedup_idempotent [zukFlores; zukCentral]) Hn).
Defined.

Lemma filterProperties_keeps_witness :
  zukUnknown ∈ Scrape.filterProperties [zukFlores; zukUnknown]
  ∧ zukUnknown ∈ [zukFlores; zukUnknown]
  ∧ (Scrape.lance zukUnknown <= 800000)%Q
  ∧ ((Scrape.desconto zukUnknown <= 0)%Q ∨ (40 <= Scrape.desconto zukUnknown)%Q)
  ∧ ¬ (Scrape.fonte zukUnknown = "Caixa Econômica"%string
       ∧ (Scrape.desconto zukUnknown == 0)%Q).
Proof.
  assert (zukUnknown ∈ Scrape.filterProperties [zukFlores; zukUnknown]) as Hq
    by (vm_compute; repeat constructor).
  split; [exact Hq|].
  exact (proj1 (proj2 (filterProperties_keeps [zukFlores; zukUnknown])
                      zukUnknown) Hq).
Defined.

Lemma meetsFilters_stricter_than_keeps_witness :
  lance recordA = Scrape.lance zukFlores
  ∧ desconto recordA = Some (Scrape.desconto zukFlores)
  ∧ meetsFilters recordA = true
  ∧ Scrape.keeps zukFlores = true.
Proof.
  assert (meetsFilters recordA = true) as Hm by reflexivity.
  split; [reflexivity|]. split; [reflexivity|]. split; [exact Hm|].
  exact (proj1 (meetsFilters_stricter_than_keeps zukFlores recordA
                  eq_refl eq_refl) Hm).
Defined.

Lemma sortProperties_stably_ranked_witness :
  Scrape.sortProperties [zukCentral; zukFlores; caixaFlores] !! 0%nat
  = Some caixaFlores
  ∧ Scrape.sortProperties [zukCentral; zukFlores; caixaFlores] !! 2%nat
    = Some zukCentral
  ∧ Scrape.rankedBefore caixaFlores zukCentral.
Proof.
  assert (Scrape.sortProperties [zukCentral; zukFlores; caixaFlores] !! 0%nat
          = Some caixaFlores) as Ha by (vm_compute; reflexivity).
  assert (Scrape.sortProperties [zukCentral; zukFlores; caixaFlores] !! 2%nat
          = Some zukCentral) as Hb by (vm_compute; reflexivity).
  split; [exact Ha|]. split; [exact Hb|].
  exact (proj1 (proj2 (sortProperties_stably_ranked
                         [zukCentral; zukFlores; caixaFlores]))
               0%nat 2%nat caixaFlores zukCentral
               (Nat.lt_0_succ 1) Ha Hb).
Defined.

Lemma scrape_process_result_witness :
  caixaFlores ∈ Scrape.process [zukUnknown; zukFlores; caixaFlores; zukCentral]
  ∧ caixaFlores ∈ [zukUnknown; zukFlores; caixaFlores; zukCentral]
  ∧ Scrape.keeps caixaFlores = true.
Proof.
  assert (caixaFlores
          ∈ Scrape.process [zukUnknown; zukFlores; caixaFlores; zukCentral])
    as Hq by (vm_compute; repeat constructor).
  split; [exact Hq|].
  exact (proj1 (scrape_process_result
                  [zukUnknown; zukFlores; caixaFlores; zukCentral])
               caixaFlores Hq).
Defined.

Lemma every_input_represented_witness :
  atThreshold ∈ concat [[recordA]; [atThreshold]]
  ∧ (normalizeText (endereco atThreshold)
     ∈ (dedupLoop (concat [[recordA]; [atThreshold]])).2
     ∨ ∃ a, a ∈ (dedupLoop (concat [[recordA]; [atThreshold]])).2
            ∧ similar (normalizeText (endereco atThreshold)) a = true).
Proof.
  assert (atThreshold ∈ concat [[recordA]; [atThreshold]]) as Hp
    by (simpl; repeat constructor).
  split; [exact Hp|].
  exact (every_input_represented [[recordA]; [atThreshold]] atThreshold Hp).
Defined.

Lemma deduplicateProperties_empty_iff_witness :
  concat [[]; []] = ([] : list Property)
  ∧ deduplicateProperties [[]; []] = [].
Proof.
  split; [reflexivity|].
  exact (proj2 (deduplicateProperties_empty_iff [[]; []]) eq_refl).
Defined.

Lemma similar_refl_AsciiText (x : string) : similar x x = true.
Proof.
  unfold similar. simpl. unfold AsciiText.compareTwoStrings.
  by rewrite String.eqb_refl.
Qed.

Lemma seen_matches_emitted_witness :
  (∀ x, similar x x = true)
  ∧ length (dedupLoop [chainFirst; chainSecond; chainThird]).2
    = length (dedupLoop [chainFirst; chainSecond; chainThird]).1.
Proof.
  split; [exact similar_refl_AsciiText|].
  exact (proj2 (seen_matches_emitted [chainFirst; chainSecond; chainThird])
               similar_refl_AsciiText).
Defined.

Lemma one_cluster_keeps_best_witness :
  concat [[chainFirst]; [chainSecond]] = chainFirst :: [chainSecond]
  ∧ (∀ p, p ∈ chainFirst :: [chainSecond] →
          similar (normalizeText (endereco p))
                  (normalizeText (endereco chainFirst)) = true)
  ∧ ∃ best, deduplicateProperties [[chainFirst]; [chainSecond]] = [best]
            ∧ best ∈ chainFirst :: [chainSecond]
            ∧ ∀ p, p ∈ chainFirst :: [chainSecond] →
                   scoreProperty p ≤ scoreProperty best.
Proof.
  assert (∀ p, p ∈ chainFirst :: [chainSecond] →
               similar (normalizeText (endereco p))
                       (normalizeText (endereco chainFirst)) = true) as Hall.
  { intros p Hp. rewrite !elem_of_cons in Hp.
    destruct Hp as [->|[->|Hp]];
      [by vm_compute..|by apply elem_of_nil in Hp]. }
  split; [reflexivity|]. split; [exact Hall|].
  exact (one_cluster_keeps_best [[chainFirst]; [chainSecond]]
                                chainFirst [chainSecond] eq_refl Hall).
Defined.

Lemma duplicate_leaves_higher_score_witness :
  findSeen (normalizeText (endereco chainSecond))
           [normalizeText (endereco chainFirst)]
  = Some (0%nat, normalizeText (endereco chainFirst))
  ∧ findIndex (normalizeText (endereco chainFirst)) [chainFirst]
    = Some (0%nat, chainFirst)
  ∧ ∃ kept,
      (dedupStep ([chainFirst], [normalizeText (endereco chainFirst)])
                 chainSecond).1 !! 0%nat = Some kept
      ∧ scoreProperty kept
        = Z.max (scoreProperty chainFirst) (scoreProperty chainSecond)
      ∧ ∀ j, j ≠ 0%nat →
             (dedupStep ([chainFirst], [normalizeText (endereco chainFirst)])
                        chainSecond).1 !! j
             = [chainFirst] !! j.
Proof.
  assert (findSeen (normalizeText (endereco chainSecond))
                   [normalizeText (endereco chainFirst)]
          = Some (0%nat, normalizeText (endereco chainFirst))) as Hseen
    by (vm_compute; reflexivity).
  assert (findIndex (normalizeText (endereco chainFirst)) [chainFirst]
          = Some (0%nat, chainFirst)) as Hfound
    by (vm_compute; reflexivity).
  split; [exact Hseen|]. split; [exact Hfound|].
  exact (duplicate_leaves_higher_score
           [chainFirst] [normalizeText (endereco chainFirst)] chainSecond
           0%nat (normalizeText (endereco chainFirst)) 0%nat chainFirst
           Hseen Hfound).
Defined.

Lemma pipeline_preserves_filters_witness :
  (∀ p, p ∈ concat [[recordA]; [atThreshold]] → meetsFilters p = true)
  ∧ ∀ q, q ∈ markNewProperties
               (deduplicateProperties [[recordA]; [atThreshold]]) [recordA] →
         meetsFilters q = true.
Proof.
  assert (∀ p, p ∈ concat [[recordA]; [atThreshold]] → meetsFilters p = true)
    as Hall.
  { intros p Hp. simpl in Hp. rewrite !elem_of_cons in Hp.
    destruct Hp as [->|[->|Hp]];
      [reflexivity..|by apply elem_of_nil in Hp]. }
  split; [exact Hall|].
  exact (pipeline_preserves_filters [[recordA]; [atThreshold]] [recordA] Hall).
Defined.

End FurtherOnAsciiText.

Lemma markNewProperties_previous_ids_witness :
  (∀ x, x ∈ map id [Examples.recordA; Examples.recordC; Examples.recordA]
        ↔ x ∈ map id [Examples.recordC; Examples.recordA])
  ∧ markNewProperties [Examples.recordA; Examples.atThreshold]
                      [Examples.recordA; Examples.recordC; Examples.recordA]
    = markNewProperties [Examples.recordA; Examples.atThreshold]
                        [Examples.recordC; Examples.recordA].
Proof.
  assert (∀ x, x ∈ map id [Examples.recordA; Examples.recordC; Examples.recordA]
               ↔ x ∈ map id [Examples.recordC; Examples.recordA]) as Hids.
  { intros x. simpl. rewrite !elem_of_cons. tauto. }
  split; [exact Hids|].
  exact (markNewProperties_previous_ids
           [Examples.recordA; Examples.atThreshold]
           [Examples.recordA; Examples.recordC; Examples.recordA]
           [Examples.recordC; Examples.recordA] Hids).
Defined.

Lemma markNewProperties_extremes_witness :
  (∀ p, p ∈ [Examples.recordA] →
        id p ∈ map id [Examples.recordC; Examples.recordA])
  ∧ ∀ q, q ∈ markNewProperties [Examples.recordA]
                               [Examples.recordC; Examples.recordA] →
         novo q = Some false.
Proof.
  assert (∀ p, p ∈ [Examples.recordA] →
               id p ∈ map id [Examples.recordC; Examples.recordA]) as Hsub.
  { intros p ->%list_elem_of_singleton. simpl. repeat constructor. }
  split; [exact Hsub|].
  exact (proj1 (markNewProperties_extremes
                  [Examples.recordA] [Examples.recordC; Examples.recordA])
               Hsub).
Defined.

(** ** Occupancy *)

Lemma startsWith_Some (s p : string) :
  JSText.startsWith s p = true → ∃ post, s = (p ++ post)%string.
Proof.
  revert s. induction p as [|c p IH]; intros s Hs.
  - by exists s.
  - destruct s as [|d s]; [done|]. simpl in Hs.
    apply andb_true_iff in Hs as [Hc Hs]. apply Ascii.eqb_eq in Hc as ->.
    destruct (IH s Hs) as [post ->]. by exists post.
Qed.

Lemma includes_Some (s p : string) :
  JSText.includes s p = true → ∃ pre post, s = (pre ++ p ++ post)%string.
Proof.
  induction s as [|d s IH]; cbn [JSText.includes]; intros Hs.
  - rewrite orb_false_r in Hs. apply startsWith_Some in Hs as [post ->].
    by exists EmptyString, post.
  - apply orb_true_iff in Hs as [Hs|Hs].
    + apply startsWith_Some in Hs as [post ->]. by exists EmptyString, post.
    + destruct (IH Hs) as (pre & post & ->). by exists (String d pre), post.
Qed.

Lemma includes_suffix (s p q : string) :
  JSText.includes s (p ++ q) = true → JSText.includes s q = true.
Proof.
  intros (pre & post & ->)%includes_Some.
  rewrite append_assoc, <- (append_assoc pre p). apply includes_app.
Qed.

(** X26. The Caixa scraper reports a text that says the property is
    vacated ("desocupado") as occupied, because that word contains
    "ocupado", which is looked for first; it reports "desocupado" only for
    a text that has "livre" and no "ocupado". *)
Theorem caixa_desocupado_reported_ocupado (obs : string) :
  (JSText.includes obs "desocupado" = true → Caixa.ocupacao obs = "ocupado"%string)
  ∧ (Caixa.ocupacao obs = "desocupado"%string
     ↔ JSText.includes obs "ocupado" = false
       ∧ JSText.includes obs "livre" = true).
Proof.
  unfold Caixa.ocupacao.
  pose proof (includes_suffix obs "des" "ocupado") as Hsuf.
  change ("des" ++ "ocupado")%string with "desocupado"%string in Hsuf.
  destruct (JSText.includes obs "ocupado") eqn:Ho.
  - split; [done|]. split; [done|by intros [? _]].
  - destruct (JSText.includes obs "desocupado") eqn:Hd;
      [by specialize (Hsuf eq_refl)|].
    split; [done|]. simpl.
    destruct (JSText.includes obs "livre"); split; try done; by intros [_ ?].
Qed.

(** X27. On one and the same text that has "desocupado" and neither
    "imóvel ocupado" nor "imovel ocupado", the Zuk and the Leilão Imóvel
    scrapers report the property as vacated and the Caixa scraper reports
    it as occupied. *)
Theorem ocupacao_scrapers_disagree (text : string) :
  JSText.includes text "desocupado" = true →
  JSText.includes text "imóvel ocupado" = false →
  JSText.includes text "imovel ocupado" = false →
  Zuk.ocupacao text = "desocupado"%string
  ∧ LeilaoImovel.ocupacao text = "desocupado"%string
  ∧ Caixa.ocupacao text = "ocupado"%string.
Proof.
  intros Hd Ha Hb.
  unfold Zuk.ocupacao, LeilaoImovel.ocupacao, Caixa.ocupacao.
  rewrite Hd, Ha, Hb.
  pose proof (includes_suffix text "des" "ocupado") as Hsuf.
  change ("des" ++ "ocupado")%string with "desocupado"%string in Hsuf.
  by rewrite (Hsuf Hd).
Qed.

Lemma caixa_desocupado_reported_ocupado_witness :
  JSText.includes "apartamento desocupado" "desocupado" = true
  ∧ Caixa.ocupacao "apartamento desocupado" = "ocupado"%string.
Proof.
  split; [reflexivity|].
  exact (proj1 (caixa_desocupado_reported_ocupado "apartamento desocupado")
               eq_refl).
Defined.

Lemma ocupacao_scrapers_disagree_witness :
  JSText.includes "apartamento desocupado" "desocupado" = true
  ∧ JSText.includes "apartamento desocupado" "imóvel ocupado" = false
  ∧ JSText.includes "apartamento desocupado" "imovel ocupado" = false
  ∧ Zuk.ocupacao "apartamento desocupado" = "desocupado"%string
  ∧ LeilaoImovel.ocupacao "apartamento desocupado" = "desocupado"%string
  ∧ Caixa.ocupacao "apartamento desocupado" = "ocupado"%string.
Proof.
  split; [reflexivity|]. split; [reflexivity|]. split; [reflexivity|].
  exact (ocupacao_scrapers_disagree "apartamento desocupado"
           eq_refl eq_refl eq_refl).
Defined.
